(** * badgerhold: the secondary-index engine of [index.go]

    A shallow embedding of [index.go] (key lists, index key construction,
    index maintenance, index availability, iterator construction and the
    streaming iterator) together with the properties its specification
    states about it.

    Conventions of the embedding:
    - a Go [[]byte] is a [list byte]; a Go [string] is a [string] (both are
      sequences of 8-bit values) and [[]byte(s)] is [list_byte_of_string];
    - a Go [error] is a value of [error]; the [nil] error is [None];
    - functions that return [(T, error)] return a sum [error + T] when the
      code never uses both components, and a pair of options otherwise;
    - code that mutates the transaction or an iterator is written in
      state-passing style: it returns the new state next to its result. *)

From Stdlib Require Import ZArith Lia Bool.
From Stdlib Require Import Strings.Byte Strings.Ascii Strings.String.
From Stdlib Require Import Sorting.Sorted.
From stdpp Require Import base list sorting strings gmap.

Local Open Scope Z_scope.

(** ** Byte strings ([bytes] package) *)

Abbreviation bytes := (list byte).

(** [bytes.Compare]: lexicographic comparison, returning -1, 0 or +1. *)
Fixpoint Compare (a b : bytes) : Z :=
  match a, b with
  | [], [] => 0
  | [], _ :: _ => -1
  | _ :: _, [] => 1
  | x :: a', y :: b' =>
      match N.compare (Byte.to_N x) (Byte.to_N y) with
      | Lt => -1
      | Gt => 1
      | Eq => Compare a' b'
      end
  end.

(** [bytes.Equal]: same length and same bytes. *)
Fixpoint Equal (a b : bytes) : bool :=
  match a, b with
  | [], [] => true
  | x :: a', y :: b' => Byte.eqb x y && Equal a' b'
  | _, _ => false
  end.

(** [bytes.HasPrefix]. *)
Fixpoint HasPrefix (s prefix : bytes) : bool :=
  match prefix, s with
  | [], _ => true
  | p :: prefix', x :: s' => Byte.eqb x p && HasPrefix s' prefix'
  | _ :: _, [] => false
  end.

(** ** [sort.Search] *)

(** The loop of [sort.Search]: [i, j := 0, n; for i < j { h := (i+j)/2;
    if !f(h) { i = h+1 } else { j = h } }; return i].  Every turn shrinks
    [j - i], so [j - i] turns of fuel are enough ([Search_loop_fuel]). *)
Fixpoint Search_loop (fuel : nat) (f : nat -> bool) (i j : nat) : nat :=
  match fuel with
  | O => i
  | S fuel' =>
      if (i <? j)%nat then
        let h := ((i + j) / 2)%nat in
        if negb (f h) then Search_loop fuel' f (h + 1)%nat j
        else Search_loop fuel' f i h
      else i
  end.

Definition Search (n : nat) (f : nat -> bool) : nat := Search_loop n f 0%nat n.

(** ** keyList *)

(** [keyList]: a slice of byte strings. *)
Abbreviation keyList := (list bytes).

(** Indexing [v[i]]: [Search] only probes indexes below [len(v)], so the
    default is never read. *)
Definition at_ (v : keyList) (i : nat) : bytes := nth i v [].

(** The position both [add], [remove] and [in] compute first. *)
Definition search_key (v : keyList) (key : bytes) : nat :=
  Search (length v) (fun i => 0 <=? Compare (at_ v i) key).

(** [keyList.add]: insert [key] at its sorted position unless it is there. *)
Definition add (v : keyList) (key : bytes) : keyList :=
  let i := search_key v key in
  if (i <? length v)%nat && Equal (at_ v i) key then v
  else take i v ++ key :: drop i v.

(** [keyList.remove]: delete the element at the searched position. *)
Definition remove (v : keyList) (key : bytes) : keyList :=
  let i := search_key v key in
  if (i <? length v)%nat then take i v ++ drop (i + 1)%nat v
  else v.

(** [keyList.in] *)
Definition in_ (v : keyList) (key : bytes) : bool :=
  let i := search_key v key in
  (i <? length v)%nat && Equal (at_ v i) key.

(** ** Errors and the key-value store (badger)

    The store is an external collaborator.  It is modelled by what the code
    needs of it: an ordered set of entries, point reads and writes that may
    fail, and a forward iterator with [Seek]. *)

Inductive error : Type :=
| ErrKeyNotFound              (* badger.ErrKeyNotFound *)
| ErrOther (msg : string).    (* any other error value *)

Definition is_ErrKeyNotFound (e : error) : bool :=
  match e with ErrKeyNotFound => true | ErrOther _ => false end.

(** [badger.Item]: a key with a value whose read may fail. *)
Record Item : Type := mkItem {
  Item_Key : bytes;
  Item_val : bytes;
  Item_valErr : option error }.

(** [item.Value(fn)]: read the value and hand it to [fn]; the error is the
    read's or else [fn]'s.  What [fn] stores in the variables it captures is
    returned on the right. *)
Definition Item_Value {A : Type} (item : Item) (fn : bytes -> error + A) : error + A :=
  match Item_valErr item with
  | Some e => inl e
  | None => fn (Item_val item)
  end.

(** [item.Key()] on the item of a store iterator returns a slice of a
    buffer the iterator owns: badger documents it as valid only as long as
    the item is, and the item of an iterator is valid until [Next].  A key
    slice is therefore kept as what identifies it, the position of the
    iterator at which [Key()] was called; what it reads as once the
    iterator has moved on is for the store to say ([keyAt] below). *)
Definition KeySlice : Type := list Item.

(** The key the slice held when it was taken: the key of the item the
    iterator stood at. *)
Definition slice_key (slice : KeySlice) : bytes :=
  match slice with
  | item :: _ => Item_Key item
  | [] => []
  end.

(** [badger.Txn]: the entries the transaction sees, in key order; its
    pending writes, newest first ([None] for a deletion); the faults of the
    store (a discarded or read-only transaction, a failing value log, a
    transaction grown too big for one more write, ...); and how its
    iterators treat the key buffers they hand out: [keyAt slice now] is what
    a key slice reads as when the iterator stands at position [now]. *)
Record Txn : Type := mkTxn {
  kv : list (bytes * bytes);
  writes : list (bytes * option bytes);
  getErr : bytes -> option error;
  valueErr : bytes -> option error;
  setErr : list (bytes * option bytes) -> bytes -> bytes -> option error;
  deleteErr : list (bytes * option bytes) -> bytes -> option error;
  keyAt : KeySlice -> list Item -> bytes }.

Fixpoint store_get (s : list (bytes * bytes)) (k : bytes) : option bytes :=
  match s with
  | [] => None
  | (k', v) :: s' => if Equal k' k then Some v else store_get s' k
  end.

Fixpoint store_set (s : list (bytes * bytes)) (k v : bytes) : list (bytes * bytes) :=
  match s with
  | [] => [(k, v)]
  | (k', v') :: s' =>
      if Compare k k' <? 0 then (k, v) :: s
      else if Compare k k' =? 0 then (k, v) :: s'
      else (k', v') :: store_set s' k v
  end.

Definition store_delete (s : list (bytes * bytes)) (k : bytes) : list (bytes * bytes) :=
  filter (fun e => Equal (fst e) k = false) s.

(** The transaction after one more write [w] that leaves the entries [s]. *)
Definition with_write (tx : Txn) (s : list (bytes * bytes)) (w : bytes * option bytes)
    : Txn :=
  mkTxn s (w :: writes tx) (getErr tx) (valueErr tx) (setErr tx) (deleteErr tx)
    (keyAt tx).

(** [tx.Get(key)] *)
Definition Txn_Get (tx : Txn) (key : bytes) : error + Item :=
  match getErr tx key with
  | Some e => inl e
  | None =>
      match store_get (kv tx) key with
      | None => inl ErrKeyNotFound
      | Some v => inr (mkItem key v (valueErr tx key))
      end
  end.

(** [tx.Set(key, val)]: whether the write fails may depend on the writes
    already pending; a failing write leaves the transaction as it was, a
    successful one is added to the pending writes. *)
Definition Txn_Set (tx : Txn) (key val : bytes) : Txn * option error :=
  match setErr tx (writes tx) key val with
  | Some e => (tx, Some e)
  | None => (with_write tx (store_set (kv tx) key val) (key, Some val), None)
  end.

(** [tx.Delete(key)] *)
Definition Txn_Delete (tx : Txn) (key : bytes) : Txn * option error :=
  match deleteErr tx (writes tx) key with
  | Some e => (tx, Some e)
  | None => (with_write tx (store_delete (kv tx) key) (key, None), None)
  end.

(** [badger.Iterator] (forward, default options): the items of the
    transaction in key order, the items from the current position on, and
    what the key slices it has handed out read as. *)
Record Iterator : Type := mkIterator {
  Iterator_items : list Item;
  Iterator_pos : list Item;
  Iterator_keyAt : KeySlice -> list Item -> bytes }.

(** [tx.NewIterator(badger.DefaultIteratorOptions)] *)
Definition Txn_NewIterator (tx : Txn) : Iterator :=
  let items := map (fun e => mkItem (fst e) (snd e) (valueErr tx (fst e))) (kv tx) in
  mkIterator items items (keyAt tx).

(** Reading a key slice now. *)
Definition Iterator_read (it : Iterator) (slice : KeySlice) : bytes :=
  Iterator_keyAt it slice (Iterator_pos it).

(** The items from the first one whose key is not below [key]. *)
Fixpoint seek_from (items : list Item) (key : bytes) : list Item :=
  match items with
  | [] => []
  | item :: items' =>
      if Compare (Item_Key item) key <? 0 then seek_from items' key else items
  end.

(** [it.Seek(key)]: move to the first item whose key is not below [key]. *)
Definition Iterator_Seek (it : Iterator) (key : bytes) : Iterator :=
  mkIterator (Iterator_items it) (seek_from (Iterator_items it) key) (Iterator_keyAt it).

(** [it.ValidForPrefix(prefix)] *)
Definition Iterator_ValidForPrefix (it : Iterator) (prefix : bytes) : bool :=
  match Iterator_pos it with
  | [] => false
  | item :: _ => HasPrefix (Item_Key item) prefix
  end.

(** ** The collaborators of this repository that [index.go] calls

    [typePrefix], [encode], [decode], [matchesAllCriteria], [hasMatchFunc]
    and the constant [Key] are declared in other files; they are taken as
    parameters.  [decode] is used at two targets: a [keyList] ([decode]) and
    a record of the query's data type ([decodeValue]). *)
Class Host : Type := {
  Datum : Type;                 (* a record value, [interface{}] *)
  DataType : Type;              (* [reflect.Type] *)
  Criterion : Type;
  Key : string;
  typePrefix : string -> bytes;
  encode : keyList -> error + bytes;
  decode : bytes -> error + keyList;
  decodeValue : DataType -> bytes -> error + Datum;
  matchesAllCriteria :
    list Criterion -> bytes -> bool -> string -> option Datum -> error + bool;
  hasMatchFunc : list Criterion -> bool }.

Definition indexPrefix : string := "_bhIndex".

(** size of iterator keys stored in memory before more are fetched *)
Definition iteratorKeyMinCacheSize : nat := 100.

(** indexKeyPrefix returns the prefix of the badger key where this index is
    stored *)
Definition indexKeyPrefix (typeName indexName : string) : bytes :=
  list_byte_of_string (indexPrefix ++ ":" ++ typeName ++ ":" ++ indexName).

Section Engine.
Context `{host : Host}.

(** [type Index func(name string, value interface{}) ([]byte, error)]: the
    code tests the two results separately, so both are kept; [None] on the
    left is the [nil] slice. *)
Definition Index : Type := string -> Datum -> option bytes * option error.

(** [Storer]: the type name and the declared indexes.  [range] over the Go
    map visits the indexes in an order the runtime picks; [Indexes] is the
    map in the order of one such visit. *)
Record Storer : Type := mkStorer {
  Storer_Type : string;
  Storer_Indexes : list (string * Index) }.

(** adds or removes a specific index on an item *)
Definition indexUpdate (typeName indexName : string) (index : Index) (tx : Txn)
    (key : bytes) (value : Datum) (delete : bool) : Txn * option error :=
  let '(indexKey, err) := index indexName value in
  match indexKey with
  | None => (tx, None)
  | Some indexKey =>
      match err with
      | Some e => (tx, Some e)
      | None =>
          let indexKey := indexKeyPrefix typeName indexName ++ indexKey in
          let update (indexValue : keyList) : Txn * option error :=
            let indexValue :=
              if delete then remove indexValue key else add indexValue key in
            if (length indexValue =? 0)%nat then Txn_Delete tx indexKey
            else
              match encode indexValue with
              | inl e => (tx, Some e)
              | inr iVal => Txn_Set tx indexKey iVal
              end in
          match Txn_Get tx indexKey with
          | inl e =>
              if negb (is_ErrKeyNotFound e) then (tx, Some e) else update []
          | inr item =>
              match Item_Value item decode with
              | inl e => (tx, Some e)
              | inr indexValue => update indexValue
              end
          end
      end
  end.

(** adds an item to the index *)
Definition indexAdd (storer : Storer) (tx : Txn) (key : bytes) (data : Datum)
    : Txn * option error :=
  (fix range (indexes : list (string * Index)) (tx : Txn) : Txn * option error :=
     match indexes with
     | [] => (tx, None)
     | (name, index) :: indexes' =>
         match indexUpdate (Storer_Type storer) name index tx key data false with
         | (tx', Some e) => (tx', Some e)
         | (tx', None) => range indexes' tx'
         end
     end) (Storer_Indexes storer) tx.

(** removes an item from the index; be sure to pass the data from the old
    record, not the new one *)
Definition indexDelete (storer : Storer) (tx : Txn) (key : bytes)
    (originalData : Datum) : Txn * option error :=
  (fix range (indexes : list (string * Index)) (tx : Txn) : Txn * option error :=
     match indexes with
     | [] => (tx, None)
     | (name, index) :: indexes' =>
         match indexUpdate (Storer_Type storer) name index tx key originalData true with
         | (tx', Some e) => (tx', Some e)
         | (tx', None) => range indexes' tx'
         end
     end) (Storer_Indexes storer) tx.

(** [indexExists]: the iterator is moved, so it is returned too. *)
Definition indexExists (it : Iterator) (typeName indexName : string)
    : Iterator * bool :=
  let iPrefix := indexKeyPrefix typeName indexName in
  let tPrefix := typePrefix typeName in
  let it := Iterator_Seek it tPrefix in
  if negb (Iterator_ValidForPrefix it tPrefix) then (it, true)
  else
    let it := Iterator_Seek it iPrefix in
    if Iterator_ValidForPrefix it iPrefix then (it, true)
    else (it, false).

(** [Query]: the fields [newIterator] reads and the flag it writes. *)
Record Query : Type := mkQuery {
  Query_index : string;
  Query_badIndex : bool;
  Query_fieldCriteria : gmap string (list Criterion);
  Query_dataType : DataType }.

(** The closures [newIterator] stores in [nextKeys], each with the
    variables it captures. *)
Inductive producer : Type :=
| keyFieldKeys (prefix : bytes) (criteria : list Criterion) (typeName : string)
    (dataType : DataType)
| typeKeys (prefix : bytes)
| indexKeys (prefix : bytes) (criteria : list Criterion).

(** The loop of the first closure (Key field), from position [pos] with
    [nKeys] collected so far.  [iter.Item()] is the head of [pos] and
    [iter.Next()] moves to its tail, so the loops recurse on the position.
    [append(nKeys, item.Key())] keeps the key slice itself, not a copy, and
    [iter.Next()] follows: [nKeys] is a list of key slices, read when the
    closure returns ([call]). *)
Fixpoint keyFieldKeys_loop (prefix : bytes) (criteria : list Criterion)
    (typeName : string) (dataType : DataType) (pos : list Item) (nKeys : list KeySlice)
    : list Item * (error + list KeySlice) :=
  if (length nKeys <? iteratorKeyMinCacheSize)%nat then
    match pos with
    | [] => (pos, inr nKeys)
    | item :: pos' =>
        if negb (HasPrefix (Item_Key item) prefix) then (pos, inr nKeys)
        else
          match Item_Value item (decodeValue dataType) with
          | inl e => (pos, inl e)
          | inr val =>
              match matchesAllCriteria criteria (Item_Key item) true typeName (Some val) with
              | inl e => (pos, inl e)
              | inr ok =>
                  keyFieldKeys_loop prefix criteria typeName dataType pos'
                    (if ok then nKeys ++ [pos] else nKeys)
              end
          end
    end
  else (pos, inr nKeys).

(** The loop of the second closure (bad index or match function); the key
    slices are kept uncopied here too. *)
Fixpoint typeKeys_loop (prefix : bytes) (pos : list Item) (nKeys : list KeySlice)
    : list Item * (error + list KeySlice) :=
  if (length nKeys <? iteratorKeyMinCacheSize)%nat then
    match pos with
    | [] => (pos, inr nKeys)
    | item :: pos' =>
        if negb (HasPrefix (Item_Key item) prefix) then (pos, inr nKeys)
        else typeKeys_loop prefix pos' (nKeys ++ [pos])
    end
  else (pos, inr nKeys).

(** The loop of the third closure (indexed field).  The result of
    [item.Value] is not looked at: when the read or [decode] fails, [nKeys]
    stays as it is and the loop goes on.  The keys appended are the ones
    [decode] has just built, not slices of the store iterator. *)
Fixpoint indexKeys_loop (prefix : bytes) (criteria : list Criterion)
    (pos : list Item) (nKeys : list bytes) : list Item * (error + list bytes) :=
  if (length nKeys <? iteratorKeyMinCacheSize)%nat then
    match pos with
    | [] => (pos, inr nKeys)
    | item :: pos' =>
        if negb (HasPrefix (Item_Key item) prefix) then (pos, inr nKeys)
        else
          match matchesAllCriteria criteria (drop (length prefix) (Item_Key item))
                  true "" None with
          | inl e => (pos, inl e)
          | inr ok =>
              let nKeys :=
                if ok then
                  match Item_Value item decode with
                  | inl _ => nKeys
                  | inr keys => nKeys ++ keys
                  end
                else nKeys in
              indexKeys_loop prefix criteria pos' nKeys
          end
    end
  else (pos, inr nKeys).

(** What the key slices a loop returns read as, the iterator standing where
    the loop left it. *)
Definition read_slices (iter : Iterator) (r : list Item * (error + list KeySlice))
    : list Item * (error + list bytes) :=
  let '(pos, r) := r in
  (pos,
   match r with
   | inl e => inl e
   | inr nKeys =>
       inr (map (Iterator_read
                   (mkIterator (Iterator_items iter) pos (Iterator_keyAt iter)))
              nKeys)
   end).

(** Calling a stored closure: [i.nextKeys(i.iter)].  The batch goes to the
    key cache and is consumed without the store iterator moving, so its
    keys are what the slices read as at the end of the call. *)
Definition call (nextKeys : producer) (iter : Iterator)
    : Iterator * (error + list bytes) :=
  let '(pos, r) :=
    match nextKeys with
    | keyFieldKeys prefix criteria typeName dataType =>
        read_slices iter
          (keyFieldKeys_loop prefix criteria typeName dataType (Iterator_pos iter) [])
    | typeKeys prefix => read_slices iter (typeKeys_loop prefix (Iterator_pos iter) [])
    | indexKeys prefix criteria =>
        indexKeys_loop prefix criteria (Iterator_pos iter) []
    end in
  (mkIterator (Iterator_items iter) pos (Iterator_keyAt iter), r).

Record iterator : Type := mkiterator {
  keyCache : list bytes;
  nextKeys : option producer;
  iter : Iterator;
  tx : Txn;
  err : option error }.

(** [newIterator]: the query's [badIndex] flag is written, so the query is
    returned too. *)
Definition newIterator (tx : Txn) (typeName : string) (query : Query)
    : iterator * Query :=
  let iter := Txn_NewIterator tx in
  let '(iter, query) :=
    if negb (String.eqb (Query_index query) "") then
      let '(iter, exists_) := indexExists iter typeName (Query_index query) in
      (iter, mkQuery (Query_index query) (negb exists_)
               (Query_fieldCriteria query) (Query_dataType query))
    else (iter, query) in
  let criteria := default [] (Query_fieldCriteria query !! Query_index query) in
  if String.eqb (Query_index query) Key && negb (Query_badIndex query) then
    let prefix := typePrefix typeName in
    (mkiterator []
       (Some (keyFieldKeys prefix criteria typeName (Query_dataType query)))
       (Iterator_Seek iter prefix) tx None, query)
  else if Query_badIndex query || hasMatchFunc criteria then
    let prefix := typePrefix typeName in
    (mkiterator [] (Some (typeKeys prefix)) (Iterator_Seek iter prefix) tx None,
     query)
  else
    let prefix := indexKeyPrefix typeName (Query_index query) in
    (mkiterator [] (Some (indexKeys prefix criteria)) (Iterator_Seek iter prefix)
       tx None, query).

(** Next returns the next key value that matches the iterators criteria.
    If no more kv's are available the return nil, if there is an error, they
    return nil and iterator.Error() will return the error. *)
Definition Next (i : iterator) : iterator * (option bytes * option bytes) :=
  match err i with
  | Some _ => (i, (None, None))
  | None =>
      match nextKeys i with
      | None => (i, (None, None))
      | Some produce =>
          let filled : iterator + iterator :=
            if (length (keyCache i) =? 0)%nat then
              let '(iter', r) := call produce (iter i) in
              match r with
              | inl e => inl (mkiterator (keyCache i) (nextKeys i) iter' (tx i) (Some e))
              | inr newKeys =>
                  if (length newKeys =? 0)%nat then
                    inl (mkiterator (keyCache i) (nextKeys i) iter' (tx i) (err i))
                  else
                    inr (mkiterator (keyCache i ++ newKeys) (nextKeys i) iter'
                           (tx i) (err i))
              end
            else inr i in
          match filled with
          | inl i => (i, (None, None))
          | inr i =>
              match keyCache i with
              | [] => (i, (None, None))   (* not reached: the cache was filled *)
              | key :: keyCache' =>
                  let i := mkiterator keyCache' (nextKeys i) (iter i) (tx i) (err i) in
                  match Txn_Get (tx i) key with
                  | inl e =>
                      (mkiterator (keyCache i) (nextKeys i) (iter i) (tx i) (Some e),
                       (None, None))
                  | inr item =>
                      match Item_Value item (fun val => inr val) with
                      | inl e =>
                          (mkiterator (keyCache i) (nextKeys i) (iter i) (tx i) (Some e),
                           (None, None))
                      | inr value => (i, (Some key, Some value))
                      end
                  end
              end
          end
      end
  end.

(** Error returns the last error, iterator.Next() will not continue if there
    is an error present *)
Definition Error (i : iterator) : option error := err i.

End Engine.

(** ** A small host, for running the engine on concrete stores

    Records are their single field's bytes; a criterion is [true] when it
    needs a match function; a key list is stored as its keys, each followed
    by a zero byte (so a key containing a zero byte cannot be encoded, and
    bytes that do not end in zero cannot be decoded). *)
Module Sample.

Definition byte_of (n : N) : byte := default x00 (Byte.of_N n).

Fixpoint sample_encode (v : keyList) : error + bytes :=
  match v with
  | [] => inr []
  | key :: v' =>
      if existsb (Byte.eqb x00) key then inl (ErrOther "encode: zero byte in key")
      else
        match sample_encode v' with
        | inl e => inl e
        | inr rest => inr (key ++ x00 :: rest)
        end
  end.

Fixpoint sample_decode_from (cur : bytes) (data : bytes) : error + keyList :=
  match data with
  | [] =>
      match cur with
      | [] => inr []
      | _ :: _ => inl (ErrOther "decode: unexpected EOF")
      end
  | x :: data' =>
      if Byte.eqb x x00 then
        match sample_decode_from [] data' with
        | inl e => inl e
        | inr keys => inr (cur :: keys)
        end
      else sample_decode_from (cur ++ [x]) data'
  end.

#[export] Instance host : Host := {|
  Datum := bytes;
  DataType := unit;
  Criterion := bool;
  Key := "";
  typePrefix := fun typeName => list_byte_of_string ("bh_" ++ typeName ++ ":");
  encode := sample_encode;
  decode := sample_decode_from [];
  decodeValue := fun _ data => inr data;
  matchesAllCriteria := fun _ _ _ _ _ => inr true;
  hasMatchFunc := existsb id |}.

(** A transaction over [entries], with no write pending, whose store never
    fails and whose iterators leave the key buffers they hand out alone. *)
Definition sound_tx (entries : list (bytes * bytes)) : Txn :=
  mkTxn entries [] (fun _ => None) (fun _ => None) (fun _ _ _ => None)
    (fun _ _ => None) (fun slice _ => slice_key slice).

(** A transaction over [entries] whose iterators recycle key buffers: once
    the iterator has moved past an item, the buffer of its key holds the key
    of the item [w] places further, when there is one. *)
Definition recycling_tx (w : nat) (entries : list (bytes * bytes)) : Txn :=
  mkTxn entries [] (fun _ => None) (fun _ => None) (fun _ _ _ => None)
    (fun _ _ => None)
    (fun slice now =>
       if (length now <? length slice)%nat then
         match drop w slice with
         | item :: _ => Item_Key item
         | [] => slice_key slice
         end
       else slice_key slice).

(** An index function that indexes the record by its bytes. *)
Definition by_value : Index := fun _ value => (Some value, None).

(** An index function that fails, the way Go functions do: [nil, err]. *)
Definition failing (e : error) : Index := fun _ _ => (None, Some e).

(** An index function that fails but still hands back a key. *)
Definition failing_with_key (e : error) : Index := fun _ value => (Some value, Some e).

Definition bs (s : string) : bytes := list_byte_of_string s.

(** The type [T] with the records [k1: a], [k2: b], [k3: a] and its index
    [f], as the engine stores them: two index entries, then the records. *)
Definition shop : list (bytes * bytes) :=
  [ (indexKeyPrefix "T" "f" ++ bs "a", bs "bh_T:k1" ++ x00 :: bs "bh_T:k3" ++ [x00]);
    (indexKeyPrefix "T" "f" ++ bs "b", bs "bh_T:k2" ++ [x00]);
    (bs "bh_T:k1", bs "a");
    (bs "bh_T:k2", bs "b");
    (bs "bh_T:k3", bs "a") ].

(** One index entry of [T.f] that 101 records share. *)
Definition crowd : list (bytes * bytes) :=
  [ (indexKeyPrefix "T" "f" ++ bs "a",
     concat (map (fun n => [byte_of (N.of_nat n); x00]) (seq 1 101))) ].

(** One index entry of [T.f] whose value is not an encoded key list. *)
Definition torn : list (bytes * bytes) :=
  [ (indexKeyPrefix "T" "f" ++ bs "a", bs "bh_T:k1") ].

(** A query on the indexed field [f] without criteria. *)
Definition by_f : Query := mkQuery "f" false ∅ tt.

(** A query on [f] with a criterion that needs a match function. *)
Definition by_f_matching : Query := mkQuery "f" false {[ "f" := [true] ]} tt.

(** A query on the primary key. *)
Definition by_key : Query := mkQuery "" false ∅ tt.

End Sample.

(** A host whose records decode only when they are one byte long. *)
Module Strict.

#[export] Instance host : Host := {|
  Datum := byte;
  DataType := unit;
  Criterion := bool;
  Key := "";
  typePrefix := fun typeName => list_byte_of_string ("bh_" ++ typeName ++ ":");
  encode := Sample.sample_encode;
  decode := Sample.sample_decode_from [];
  decodeValue := fun _ data =>
    match data with
    | [x] => inr x
    | _ => inl (ErrOther "decode: not a record")
    end;
  matchesAllCriteria := fun _ _ _ _ _ => inr true;
  hasMatchFunc := existsb id |}.

End Strict.

(** ** Sequences of [add] and [remove] *)

Inductive keyList_op : Type :=
| Add (key : bytes)
| Remove (key : bytes).

Definition apply_op (v : keyList) (o : keyList_op) : keyList :=
  match o with
  | Add key => add v key
  | Remove key => remove v key
  end.

(** The list after the operations [ops], in order, on the empty list. *)
Definition run_ops (ops : list keyList_op) : keyList := fold_left apply_op ops [].

(** Byte strings in strictly ascending lexicographic order. *)
Definition bytes_lt (a b : bytes) : Prop := Compare a b < 0.

Definition sorted_keys (v : keyList) : Prop := StronglySorted bytes_lt v.

(** ** Names without the delimiter of index keys *)

(** The byte [":"] that [indexKeyPrefix] puts between the components. *)
Definition delimiter : byte := x3a.

Definition delimiter_free (s : string) : Prop := delimiter ∉ list_byte_of_string s.

(** ** The store's entries, as an iterator sees them *)

(** The store keeps its entries in ascending key order. *)
Definition sorted_items (items : list Item) : Prop :=
  StronglySorted (fun x y => bytes_lt (Item_Key x) (Item_Key y)) items.

Definition sorted_store (s : list (bytes * bytes)) : Prop :=
  StronglySorted (fun x y => bytes_lt (fst x) (fst y)) s.

(** Some entry's key starts with [prefix]. *)
Definition exists_under (items : list Item) (prefix : bytes) : Prop :=
  exists item, item ∈ items /\ HasPrefix (Item_Key item) prefix = true.

(** The prefix a stored closure scans. *)
Definition producer_prefix `{Host} (p : producer) : bytes :=
  match p with
  | keyFieldKeys prefix _ _ _ => prefix
  | typeKeys prefix => prefix
  | indexKeys prefix _ => prefix
  end.

(** [ValidForPrefix] at a position. *)
Definition valid_at (pos : list Item) (prefix : bytes) : bool :=
  match pos with
  | [] => false
  | item :: _ => HasPrefix (Item_Key item) prefix
  end.

(** ** What [indexUpdate] starts from, and what [newIterator] picks *)

(** The key list [indexUpdate] works on: the decoded index entry, or the
    empty list when the store has no entry under [indexKey]. *)
Definition fetched `{Host} (tx : Txn) (indexKey : bytes) (indexValue : keyList) : Prop :=
  (Txn_Get tx indexKey = inl ErrKeyNotFound /\ indexValue = []) \/
  (exists item, Txn_Get tx indexKey = inr item /\
                Item_Value item decode = inr indexValue).

(** The three scan strategies, and the one a stored closure implements. *)
Inductive strategy : Type := PrimaryKeyScan | FullTypeScan | IndexedLookup.

Definition strategy_of `{Host} (p : producer) : strategy :=
  match p with
  | keyFieldKeys _ _ _ _ => PrimaryKeyScan
  | typeKeys _ => FullTypeScan
  | indexKeys _ _ => IndexedLookup
  end.

(** The state after [n] calls of [Next]. *)
Definition Next_times `{Host} (n : nat) (i : iterator) : iterator :=
  Nat.iter n (fun i => fst (Next i)) i.

(** ** What a scan is expected to yield *)

(** The items at the front of [pos] whose keys start with [prefix]: what a
    scan of the prefix visits from [pos] on. *)
Fixpoint prefix_run (pos : list Item) (prefix : bytes) : list Item :=
  match pos with
  | [] => []
  | item :: pos' =>
      if HasPrefix (Item_Key item) prefix then item :: prefix_run pos' prefix else []
  end.

(** The entries of a store whose keys start with [prefix], in store order. *)
Definition entries_under (s : list (bytes * bytes)) (prefix : bytes)
    : list (bytes * bytes) :=
  List.filter (fun e => HasPrefix (fst e) prefix) s.

(** The keys [keys] with the values the store holds for them. *)
Definition resolve (s : list (bytes * bytes)) (keys : list bytes) : list (bytes * bytes) :=
  omap (fun k => match store_get s k with Some v => Some (k, v) | None => None end) keys.

(** Whether the record [e] passes the criteria of a primary-key scan. *)
Definition record_matches `{Host} (criteria : list Criterion) (typeName : string)
    (dataType : DataType) (e : bytes * bytes) : bool :=
  match decodeValue dataType (snd e) with
  | inl _ => false
  | inr val =>
      match matchesAllCriteria criteria (fst e) true typeName (Some val) with
      | inl _ => false
      | inr ok => ok
      end
  end.

(** The record keys an index entry [e] contributes to an indexed lookup:
    its key list when the field value in its key passes the criteria and
    the list decodes. *)
Definition entry_keys `{Host} (prefix : bytes) (criteria : list Criterion)
    (e : bytes * bytes) : list bytes :=
  match matchesAllCriteria criteria (drop (length prefix) (fst e)) true "" None with
  | inr true =>
      match decode (snd e) with
      | inl _ => []
      | inr keys => keys
      end
  | _ => []
  end.

(** The caller's loop [for k, v := i.Next(); k != nil; k, v = i.Next()],
    run for at most [fuel] results: the pairs it sees and the iterator it
    is left with. *)
Fixpoint drain `{Host} (fuel : nat) (i : iterator)
    : list (bytes * bytes) * iterator :=
  match fuel with
  | O => ([], i)
  | S fuel' =>
      match Next i with
      | (i', (Some k, Some v)) =>
          let '(rest, i'') := drain fuel' i' in ((k, v) :: rest, i'')
      | (i', _) => ([], i')
      end
  end.

(** The entry an item of the store iterator stands for. *)
Definition item_entry (item : Item) : bytes * bytes := (Item_Key item, Item_val item).

(** The record keys a stored closure has still to produce from position
    [pos]: the keys under the prefix for the full-type scan, those of them
    whose record passes the criteria for the primary-key scan, the key lists
    of the index entries under the prefix for the indexed lookup. *)
Definition pending `{Host} (produce : producer) (pos : list Item) : list bytes :=
  match produce with
  | keyFieldKeys prefix criteria typeName dataType =>
      map Item_Key
        (List.filter (fun item => record_matches criteria typeName dataType (item_entry item))
           (prefix_run pos prefix))
  | typeKeys prefix => map Item_Key (prefix_run pos prefix)
  | indexKeys prefix criteria =>
      concat (map (fun item => entry_keys prefix criteria (item_entry item))
                (prefix_run pos prefix))
  end.

(** An item a stored closure gets through without error: its value can be
    read and, where the closure decodes a record or evaluates criteria, these
    return no error. *)
Definition readable `{Host} (produce : producer) (item : Item) : Prop :=
  Item_valErr item = None /\
  match produce with
  | keyFieldKeys _ criteria typeName dataType =>
      exists val ok,
        decodeValue dataType (Item_val item) = inr val /\
        matchesAllCriteria criteria (Item_Key item) true typeName (Some val) = inr ok
  | typeKeys _ => True
  | indexKeys prefix criteria =>
      exists ok,
        matchesAllCriteria criteria (drop (length prefix) (Item_Key item)) true "" None
          = inr ok
  end.

(** The key slices taken along a scan from [pos] keep their content as the
    scan goes on: a slice taken at a position from [pos] on reads as the key
    it was taken from, wherever the iterator stands later.  A store that
    recycles the key buffers of the items its iterator has passed meets this
    on short scans only. *)
Definition keys_kept (keyAt : KeySlice -> list Item -> bytes) (pos : list Item) : Prop :=
  forall slice now,
    slice `suffix_of` pos -> now `suffix_of` slice -> keyAt slice now = slice_key slice.

(** A transaction whose reads do not fail. *)
Definition reads_ok (tx : Txn) : Prop :=
  (forall k, getErr tx k = None) /\ (forall k, valueErr tx k = None).

(** * Properties *)

(** ** Byte-string order *)

Lemma to_N_inj (x y : byte) : Byte.to_N x = Byte.to_N y -> x = y.
Proof.
  intros H. pose proof (Byte.of_to_N x) as Hx. rewrite H, Byte.of_to_N in Hx.
  congruence.
Qed.

Lemma byte_eqb_eq (x y : byte) : Byte.eqb x y = true <-> x = y.
Proof. split; [apply Byte.byte_dec_bl | apply Byte.byte_dec_lb]. Qed.

Lemma Compare_range (a c : bytes) : Compare a c = -1 \/ Compare a c = 0 \/ Compare a c = 1.
Proof.
  revert c; induction a as [|x a IH]; intros [|y c]; simpl; auto.
  destruct (N.compare_spec (Byte.to_N x) (Byte.to_N y)); auto.
Qed.

Lemma Compare_refl (a : bytes) : Compare a a = 0.
Proof. induction a as [|x a IH]; simpl; [done|]. by rewrite N.compare_refl. Qed.

Lemma Compare_eq (a c : bytes) : Compare a c = 0 -> a = c.
Proof.
  revert c; induction a as [|x a IH]; intros [|y c]; simpl; try done.
  destruct (N.compare_spec (Byte.to_N x) (Byte.to_N y)) as [E| |]; try done.
  intros H. f_equal; [by apply to_N_inj | by apply IH].
Qed.

Lemma Compare_antisym (a c : bytes) : Compare c a = - Compare a c.
Proof.
  revert c; induction a as [|x a IH]; intros [|y c]; simpl; try done.
  rewrite (N.compare_antisym (Byte.to_N x) (Byte.to_N y)).
  destruct (Byte.to_N x ?= Byte.to_N y)%N; simpl; auto.
Qed.

Lemma Compare_lt_trans (a c d : bytes) :
  Compare a c < 0 -> Compare c d < 0 -> Compare a d < 0.
Proof.
  revert c d; induction a as [|x a IH]; intros [|y c] [|z d]; simpl; try lia.
  destruct (N.compare_spec (Byte.to_N x) (Byte.to_N y)) as [E|L|G];
    destruct (N.compare_spec (Byte.to_N y) (Byte.to_N z)) as [E'|L'|G']; try lia.
  - rewrite E, E', N.compare_refl. apply IH.
  - intros _ _. replace (Byte.to_N x ?= Byte.to_N z)%N with Lt; [lia|].
    symmetry. apply N.compare_lt_iff. lia.
  - intros _ _. replace (Byte.to_N x ?= Byte.to_N z)%N with Lt; [lia|].
    symmetry. apply N.compare_lt_iff. lia.
  - intros _ _. replace (Byte.to_N x ?= Byte.to_N z)%N with Lt; [lia|].
    symmetry. apply N.compare_lt_iff. lia.
Qed.

Lemma Equal_eq (a c : bytes) : Equal a c = true <-> a = c.
Proof.
  revert c; induction a as [|x a IH]; intros [|y c]; simpl; try done.
  rewrite andb_true_iff, byte_eqb_eq, IH. split; [intros []|intros [= ]]; by subst.
Qed.

#[local] Instance bytes_lt_irrefl : Irreflexive bytes_lt.
Proof. intros a H. unfold bytes_lt in H. rewrite Compare_refl in H. lia. Qed.

#[local] Instance bytes_lt_trans : Transitive bytes_lt.
Proof. intros a c d. apply Compare_lt_trans. Qed.

(** ** [sort.Search] *)

Section SearchFacts.
Local Open Scope nat_scope.
Variable f : nat -> bool.

(** The loop is over after [j - i] turns: more fuel changes nothing. *)
Lemma Search_loop_fuel (fuel fuel' i j : nat) :
  j - i <= fuel -> j - i <= fuel' ->
  Search_loop fuel f i j = Search_loop fuel' f i j.
Proof.
  revert fuel' i j; induction fuel as [|fuel IH]; intros [|fuel'] i j H H';
    cbn [Search_loop]; try done.
  - destruct (Nat.ltb_spec i j); [lia|done].
  - destruct (Nat.ltb_spec i j); [lia|done].
  - destruct (Nat.ltb_spec i j) as [Hlt|]; [|done].
    assert (i <= (i + j) / 2 < j).
    { split; [apply Nat.div_le_lower_bound; lia | apply Nat.Div0.div_lt_upper_bound; lia]. }
    destruct (f ((i + j) / 2)); cbn [negb]; apply IH; lia.
Qed.

(** With enough fuel the loop satisfies the equation of the source's loop. *)
Lemma Search_loop_unfold (fuel i j : nat) :
  j - i <= fuel ->
  Search_loop fuel f i j =
    if i <? j then
      if negb (f ((i + j) / 2)) then Search_loop fuel f ((i + j) / 2 + 1) j
      else Search_loop fuel f i ((i + j) / 2)
    else i.
Proof.
  intros H. destruct fuel as [|fuel].
  - cbn [Search_loop]. destruct (Nat.ltb_spec i j); [lia|done].
  - change (Search_loop (S fuel) f i j) with
      (if i <? j then
         if negb (f ((i + j) / 2)) then Search_loop fuel f ((i + j) / 2 + 1) j
         else Search_loop fuel f i ((i + j) / 2)
       else i).
    destruct (Nat.ltb_spec i j) as [Hlt|]; [|done].
    assert (i <= (i + j) / 2 < j).
    { split; [apply Nat.div_le_lower_bound; lia | apply Nat.Div0.div_lt_upper_bound; lia]. }
    destruct (f ((i + j) / 2)); cbn [negb]; apply Search_loop_fuel; lia.
Qed.

(** On a predicate that is false and then true on [0, n), the loop keeps
    [f] false below [i] and true from [j] on. *)
Lemma Search_loop_spec (n fuel i j : nat) :
  (forall k k', k <= k' < n -> f k = true -> f k' = true) ->
  j - i <= fuel -> i <= j <= n ->
  (forall k, k < i -> f k = false) ->
  (forall k, j <= k < n -> f k = true) ->
  let r := Search_loop fuel f i j in
  i <= r <= j /\ (forall k, k < r -> f k = false) /\ (forall k, r <= k < n -> f k = true).
Proof.
  intros Hmono. revert i j; induction fuel as [|fuel IH]; intros i j Hf Hij Hlo Hhi;
    cbn [Search_loop].
  - assert (i = j) by lia. subst. auto.
  - destruct (Nat.ltb_spec i j) as [Hlt|Hge].
    + assert (i <= (i + j) / 2 < j) as Hh.
      { split; [apply Nat.div_le_lower_bound; lia | apply Nat.Div0.div_lt_upper_bound; lia]. }
      destruct (f ((i + j) / 2)) eqn:Hfh; cbn [negb].
      * destruct (IH i ((i + j) / 2)) as (? & ? & ?); [lia|lia|done| |].
        { intros k Hk. apply (Hmono ((i + j) / 2)); [lia|done]. }
        split; [lia|done].
      * destruct (IH ((i + j) / 2 + 1) j) as (? & ? & ?); [lia|lia| |done|].
        { intros k Hk. destruct (f k) eqn:Hfk; [|done].
          rewrite <- Hfh. symmetry. apply (Hmono k); [lia|done]. }
        split; [lia|done].
    + assert (i = j) by lia. subst. auto.
Qed.

Lemma Search_spec (n : nat) :
  (forall k k', k <= k' < n -> f k = true -> f k' = true) ->
  let r := Search n f in
  r <= n /\ (forall k, k < r -> f k = false) /\ (forall k, r <= k < n -> f k = true).
Proof.
  intros Hmono. unfold Search.
  destruct (Search_loop_spec n n 0 n Hmono) as (? & ? & ?); try lia.
  split; [lia|done].
Qed.

(** Without any assumption on [f] the result is still a position of the
    slice or its length. *)
Lemma Search_loop_bound (fuel i j : nat) : i <= j -> i <= Search_loop fuel f i j <= j.
Proof.
  revert i j; induction fuel as [|fuel IH]; intros i j Hij; cbn [Search_loop]; [lia|].
  destruct (Nat.ltb_spec i j) as [Hlt|Hge]; [|lia].
  assert (i <= (i + j) / 2 < j) as Hh.
  { split; [apply Nat.div_le_lower_bound; lia | apply Nat.Div0.div_lt_upper_bound; lia]. }
  destruct (f ((i + j) / 2)); cbn [negb].
  - specialize (IH i ((i + j) / 2)). lia.
  - specialize (IH ((i + j) / 2 + 1) j). lia.
Qed.

End SearchFacts.

(** [Search n f] reads [f] below [n] only. *)
Lemma Search_ext (n : nat) (f g : nat -> bool) :
  (forall k, (k < n)%nat -> f k = g k) -> Search n f = Search n g.
Proof.
  intros Hfg. unfold Search.
  assert (forall fuel i j, (i <= j <= n)%nat ->
            Search_loop fuel f i j = Search_loop fuel g i j) as Hloop.
  { induction fuel as [|fuel IH]; intros i j Hij; cbn [Search_loop]; [done|].
    destruct (Nat.ltb_spec i j) as [Hlt|]; [|done].
    assert (i <= (i + j) / 2 < j)%nat as Hh.
    { split; [apply Nat.div_le_lower_bound; lia
             |apply Nat.Div0.div_lt_upper_bound; lia]. }
    rewrite <- (Hfg ((i + j) / 2)%nat) by lia.
    destruct (f ((i + j) / 2)%nat); cbn [negb]; apply IH; lia. }
  apply Hloop. lia.
Qed.

(** ** keyList on sorted lists *)

Lemma at_lookup (v : keyList) (i : nat) (x : bytes) : v !! i = Some x -> at_ v i = x.
Proof. apply nth_lookup_Some. Qed.

Lemma at_drop_head (v : keyList) (i : nat) (y : bytes) (l : keyList) :
  drop i v = y :: l -> at_ v i = y /\ (i < length v)%nat.
Proof.
  intros H. assert (v !! i = Some y) as Hy.
  { pose proof (lookup_drop v i 0) as E. rewrite H in E. simpl in E.
    by rewrite Nat.add_0_r in E. }
  split; [by apply at_lookup | by eapply lookup_lt_Some].
Qed.

Lemma sorted_keys_at_lt (v : keyList) (k k' : nat) :
  sorted_keys v -> (k < k' < length v)%nat -> bytes_lt (at_ v k) (at_ v k').
Proof.
  intros Hs; revert k k'. induction Hs as [|x l Hs IH Hall]; intros k k' Hk.
  - simpl in Hk. lia.
  - destruct k' as [|k']; [lia|]. simpl in Hk. destruct k as [|k].
    + unfold at_; simpl. rewrite Forall_forall in Hall. apply Hall.
      apply list_elem_of_In, nth_In. lia.
    + apply (IH k k'). lia.
Qed.

(** On a sorted list the searched position splits the list into the keys
    below [key] and the keys not below it. *)
Lemma search_key_split (v : keyList) (key : bytes) :
  sorted_keys v ->
  let r := search_key v key in
  (r <= length v)%nat /\
  Forall (fun x => Compare x key < 0) (take r v) /\
  Forall (fun x => 0 <= Compare x key) (drop r v).
Proof.
  intros Hs. unfold search_key.
  destruct (Search_spec (fun i => 0 <=? Compare (at_ v i) key) (length v))
    as (Hr & Hlo & Hhi).
  { intros k k' Hk H. apply Z.leb_le in H. apply Z.leb_le.
    destruct (decide (k = k')) as [->|]; [done|].
    pose proof (sorted_keys_at_lt v k k' Hs ltac:(lia)) as Hlt. unfold bytes_lt in Hlt.
    destruct (Z_lt_le_dec (Compare (at_ v k') key) 0) as [Hc|]; [|done].
    pose proof (Compare_lt_trans _ _ _ Hlt Hc). lia. }
  split; [done|]. split.
  - apply Forall_lookup. intros i x Hx. apply lookup_take_Some in Hx as [Hx Hi].
    specialize (Hlo i Hi). apply Z.leb_gt in Hlo. by rewrite (at_lookup _ _ _ Hx) in Hlo.
  - apply Forall_lookup. intros i x Hx. rewrite lookup_drop in Hx.
    pose proof (lookup_lt_Some _ _ _ Hx).
    specialize (Hhi _ (conj (Nat.le_add_r _ i) H)).
    apply Z.leb_le in Hhi. by rewrite (at_lookup _ _ _ Hx) in Hhi.
Qed.

(** The position is the number of keys below [key]. *)
Lemma search_key_app (l1 l2 : keyList) (key : bytes) :
  sorted_keys (l1 ++ l2) ->
  Forall (fun x => Compare x key < 0) l1 ->
  Forall (fun x => 0 <= Compare x key) l2 ->
  search_key (l1 ++ l2) key = length l1.
Proof.
  intros Hs H1 H2. destruct (search_key_split (l1 ++ l2) key Hs) as (Hr & Hlo & Hhi).
  set (r := search_key (l1 ++ l2) key) in *.
  rewrite Forall_lookup in H1, H2, Hlo, Hhi.
  destruct (Nat.lt_trichotomy r (length l1)) as [Hlt|[->|Hgt]]; [|done|].
  - destruct (lookup_lt_is_Some_2 l1 r Hlt) as [x Hx].
    pose proof (H1 _ _ Hx). specialize (Hhi 0%nat x).
    rewrite lookup_drop, Nat.add_0_r, lookup_app_l in Hhi by done.
    specialize (Hhi Hx). lia.
  - rewrite length_app in Hr.
    destruct (lookup_lt_is_Some_2 l2 0%nat ltac:(lia)) as [x Hx].
    pose proof (H2 _ _ Hx). specialize (Hlo (length l1) x).
    rewrite lookup_take_lt, lookup_app_r, Nat.sub_diag in Hlo by lia.
    specialize (Hlo Hx). lia.
Qed.

Lemma sorted_keys_NoDup (v : keyList) : sorted_keys v -> NoDup v.
Proof.
  induction 1 as [|x l Hs IH Hall]; constructor; [|done].
  intros Hin. rewrite Forall_forall in Hall. by apply (irreflexivity bytes_lt x), Hall.
Qed.

Lemma add_sorted (v : keyList) (key : bytes) : sorted_keys v -> sorted_keys (add v key).
Proof.
  intros Hs. unfold add. destruct (search_key_split v key Hs) as (Hr & Hlo & Hhi).
  set (r := search_key v key) in *.
  destruct ((r <? length v)%nat && Equal (at_ v r) key) eqn:Hc; [done|].
  pose proof Hs as Hs'. rewrite <- (take_drop r v) in Hs'.
  apply StronglySorted_app in Hs' as (Hcross & Hs1 & Hs2).
  assert (Forall (bytes_lt key) (drop r v)) as Hkey.
  { destruct (drop r v) as [|y l] eqn:Hd; [constructor|].
    destruct (at_drop_head _ _ _ _ Hd) as [Hy Hlt].
    apply Nat.ltb_lt in Hlt. rewrite Hlt, Hy in Hc. simpl in Hc.
    apply StronglySorted_cons in Hs2 as [Hyl _].
    apply Forall_cons in Hhi as [Hy0 _].
    assert (bytes_lt key y) as Hky.
    { unfold bytes_lt. rewrite Compare_antisym.
      destruct (Z.eq_dec (Compare y key) 0) as [E|]; [|lia].
      apply Compare_eq, Equal_eq in E. congruence. }
    constructor; [done|]. eapply Forall_impl; [exact Hyl|].
    intros z Hz. by transitivity y. }
  apply StronglySorted_app. split_and!; [|done|].
  - intros x1 x2 Hx1 Hx2. rewrite Forall_forall in Hlo.
    apply elem_of_cons in Hx2 as [->|Hx2]; [by apply Hlo|by apply Hcross].
  - apply StronglySorted_cons. split; [done|].
    rewrite <- (take_drop r v) in Hs. by apply StronglySorted_app in Hs as (_ & _ & ?).
Qed.

Lemma remove_sorted (v : keyList) (key : bytes) :
  sorted_keys v -> sorted_keys (remove v key).
Proof.
  intros Hs. unfold remove. set (r := search_key v key).
  destruct (r <? length v)%nat; [|done].
  rewrite <- (take_drop r v) in Hs. apply StronglySorted_app in Hs as (Hcross & Hs1 & Hs2).
  destruct (drop r v) as [|y l] eqn:Hd.
  - rewrite <- drop_drop, Hd. simpl. by rewrite app_nil_r.
  - rewrite <- drop_drop, Hd. simpl. rewrite drop_0.
    apply StronglySorted_cons in Hs2 as [_ Hl].
    apply StronglySorted_app. split_and!; [|done|done].
    intros x1 x2 Hx1 Hx2. apply Hcross; [done|]. by apply elem_of_cons; right.
Qed.

(** On a sorted list, [add] of a key that is in the list changes nothing. *)
Lemma add_present (v : keyList) (key : bytes) :
  sorted_keys v -> key ∈ v -> add v key = v.
Proof.
  intros Hs Hin. apply list_elem_of_split in Hin as (l1 & l2 & ->).
  pose proof Hs as Hs'. apply StronglySorted_app in Hs' as (Hcross & _ & Hs2).
  apply StronglySorted_cons in Hs2 as [Hl2 _].
  unfold add. rewrite (search_key_app l1 (key :: l2) key Hs).
  - assert (at_ (l1 ++ key :: l2) (length l1) = key) as ->.
    { apply at_lookup. by rewrite lookup_app_r, Nat.sub_diag. }
    replace (Equal key key) with true by (symmetry; by apply Equal_eq).
    rewrite length_app. simpl.
    destruct (Nat.ltb_spec (length l1) (length l1 + S (length l2))); [done|lia].
  - apply Forall_forall. intros x Hx. apply Hcross; [done|]. by left.
  - constructor; [rewrite Compare_refl; lia|].
    eapply Forall_impl; [exact Hl2|]. intros x Hx. unfold bytes_lt in Hx.
    rewrite Compare_antisym. lia.
Qed.

(** On a sorted list, [remove] of a key that is in the list takes out that
    key and nothing else. *)
Lemma remove_present (l1 l2 : keyList) (key : bytes) :
  sorted_keys (l1 ++ key :: l2) -> remove (l1 ++ key :: l2) key = l1 ++ l2.
Proof.
  intros Hs. pose proof Hs as Hs'. apply StronglySorted_app in Hs' as (Hcross & _ & Hs2).
  apply StronglySorted_cons in Hs2 as [Hl2 _].
  unfold remove. rewrite (search_key_app l1 (key :: l2) key Hs).
  - rewrite length_app. simpl.
    destruct (Nat.ltb_spec (length l1) (length l1 + S (length l2))); [|lia].
    rewrite take_app_length. f_equal.
    rewrite drop_app_ge, Nat.add_comm, Nat.add_sub by lia. done.
  - apply Forall_forall. intros x Hx. apply Hcross; [done|]. by left.
  - constructor; [rewrite Compare_refl; lia|].
    eapply Forall_impl; [exact Hl2|]. intros x Hx. unfold bytes_lt in Hx.
    rewrite Compare_antisym. lia.
Qed.

(** On a sorted list, [remove] of a key above every key of the list changes
    nothing. *)
Lemma remove_above_all (v : keyList) (key : bytes) :
  sorted_keys v -> Forall (fun x => Compare x key < 0) v -> remove v key = v.
Proof.
  intros Hs Hall. unfold remove.
  pose proof (search_key_app v [] key) as E. rewrite app_nil_r in E.
  rewrite E by (done || constructor).
  destruct (Nat.ltb_spec (length v) (length v)); [lia|done].
Qed.

(** On a sorted list, [remove] of a key that is not in the list but below
    some key of the list takes out the least key above it. *)
Lemma remove_absent_below (l1 l2 : keyList) (key y : bytes) :
  sorted_keys (l1 ++ y :: l2) ->
  Forall (fun x => Compare x key < 0) l1 -> Compare key y < 0 ->
  remove (l1 ++ y :: l2) key = l1 ++ l2.
Proof.
  intros Hs H1 Hy. pose proof Hs as Hs'.
  apply StronglySorted_app in Hs' as (Hcross & _ & Hs2).
  apply StronglySorted_cons in Hs2 as [Hl2 _].
  unfold remove. rewrite (search_key_app l1 (y :: l2) key Hs H1).
  - rewrite length_app. simpl.
    destruct (Nat.ltb_spec (length l1) (length l1 + S (length l2))); [|lia].
    rewrite take_app_length. f_equal.
    rewrite drop_app_ge, Nat.add_comm, Nat.add_sub by lia. done.
  - constructor; [rewrite Compare_antisym; lia|].
    eapply Forall_impl; [exact Hl2|]. intros x Hx.
    pose proof (Compare_lt_trans _ _ _ Hy Hx). rewrite Compare_antisym. lia.
Qed.

(** ** C1 and C5: the key list under [add] and [remove] *)

(** Where [remove] does what is expected of it: on a sorted key list,
    removing a key that is in the list takes out exactly that key and leaves
    the others in their order, and removing a key above every key of the
    list is a no-op. *)
Lemma remove_present_or_above (v : keyList) (key : bytes) :
  sorted_keys v ->
  (forall l1 l2, v = l1 ++ key :: l2 -> remove v key = l1 ++ l2) /\
  (Forall (fun x => Compare x key < 0) v -> remove v key = v).
Proof.
  intros Hs. split.
  - intros l1 l2 ->. by apply remove_present.
  - by apply remove_above_all.
Qed.

(** C1 at the failing input: the key list [[02]] is sorted and does not
    hold the key [01], yet removing [01] is not a no-op: it takes out [02],
    the least key above the absent one, and leaves the list empty.  ([add]
    and [in] compare the key at the searched position with [bytes.Equal];
    [remove] does not.) *)
Lemma remove_absent_key_not_noop :
  sorted_keys [[x02]] /\ ([x01] ∉ [[x02]]) /\
  in_ [[x02]] [x01] = false /\
  remove [[x02]] [x01] = [] /\ remove [[x02]] [x01] <> [[x02]].
Proof.
  split_and!; try done.
  - repeat constructor.
  - intros H. apply list_elem_of_singleton in H. discriminate H.
Qed.

Lemma run_ops_snoc (ops : list keyList_op) (o : keyList_op) :
  run_ops (ops ++ [o]) = apply_op (run_ops ops) o.
Proof. unfold run_ops. by rewrite fold_left_app. Qed.

Lemma run_ops_sorted (ops : list keyList_op) : sorted_keys (run_ops ops).
Proof.
  induction ops as [|o ops IH] using rev_ind; [constructor|].
  rewrite run_ops_snoc. destruct o; simpl; [by apply add_sorted|by apply remove_sorted].
Qed.

(** C5: after every step of every sequence of [add] and [remove] operations
    on the empty key list, the list is in strictly ascending lexicographic
    byte order and has no duplicate entry, and adding a key that the list
    holds leaves it unchanged. *)
Theorem keyList_sorted_duplicate_free (ops : list keyList_op) (n : nat) :
  let v := run_ops (take n ops) in
  StronglySorted (fun a c => Compare a c < 0) v /\
  NoDup v /\
  (forall key, key ∈ v -> add v key = v).
Proof.
  intros v. pose proof (run_ops_sorted (take n ops)) as Hs. fold v in Hs.
  split_and!; [exact Hs | by apply sorted_keys_NoDup |].
  intros key Hin. by apply add_present.
Qed.

(** After the first four of five operations the list is [[01]; [02 00]],
    and adding [01] again changes nothing. *)
Lemma keyList_sorted_duplicate_free_witness :
  let v := run_ops (take 4 [Add [x03]; Add [x01]; Remove [x03]; Add [x02; x00]; Add [x07]]) in
  v = [[x01]; [x02; x00]] /\ [x01] ∈ v /\ add v [x01] = v.
Proof.
  split; [reflexivity|]. split; [by left|].
  apply (keyList_sorted_duplicate_free
           [Add [x03]; Add [x01]; Remove [x03]; Add [x02; x00]; Add [x07]] 4).
  by left.
Defined.

(** ** C3: index key prefixes *)

Lemma list_byte_of_string_app (s1 s2 : string) :
  list_byte_of_string (s1 ++ s2) = list_byte_of_string s1 ++ list_byte_of_string s2.
Proof.
  induction s1 as [|a s1 IH]; [done|].
  change (list_byte_of_string (String a s1 ++ s2))
    with (byte_of_ascii a :: list_byte_of_string (s1 ++ s2)).
  by rewrite IH.
Qed.

Lemma list_byte_of_string_inj (s1 s2 : string) :
  list_byte_of_string s1 = list_byte_of_string s2 -> s1 = s2.
Proof.
  intros H. rewrite <- (string_of_list_byte_of_string s1), H.
  apply string_of_list_byte_of_string.
Qed.

Lemma indexKeyPrefix_bytes (typeName indexName : string) :
  indexKeyPrefix typeName indexName =
    list_byte_of_string "_bhIndex:" ++
    list_byte_of_string typeName ++ delimiter :: list_byte_of_string indexName.
Proof.
  unfold indexKeyPrefix, indexPrefix.
  change ("_bhIndex" ++ ":" ++ typeName ++ ":" ++ indexName)%string
    with ("_bhIndex:" ++ (typeName ++ ":" ++ indexName))%string.
  by rewrite !list_byte_of_string_app.
Qed.

(** Two byte strings cut at the first delimiter agree on both sides. *)
Lemma split_at_first {A : Type} (c : A) (l1 l2 r1 r2 : list A) :
  c ∉ l1 -> c ∉ l2 -> l1 ++ c :: r1 = l2 ++ c :: r2 -> l1 = l2 /\ r1 = r2.
Proof.
  revert l2; induction l1 as [|x l1 IH]; intros [|y l2] H1 H2 E; simpl in E.
  - by injection E as ->.
  - injection E as -> _. exfalso. apply H2. by left.
  - injection E as -> _. exfalso. apply H1. by left.
  - injection E as -> E. destruct (IH l2) as [-> ->]; [| |done|done].
    + intros H. apply H1. by right.
    + intros H. apply H2. by right.
Qed.

(** The same, cut at the last delimiter. *)
Lemma split_at_last {A : Type} (c : A) (l1 l2 r1 r2 : list A) :
  c ∉ r1 -> c ∉ r2 -> l1 ++ c :: r1 = l2 ++ c :: r2 -> l1 = l2 /\ r1 = r2.
Proof.
  intros H1 H2 E. apply (f_equal reverse) in E.
  rewrite !reverse_app, !reverse_cons, <- !app_assoc in E. simpl in E.
  apply split_at_first in E as [Er El]; [|by rewrite elem_of_reverse..].
  apply (inj reverse) in Er, El. done.
Qed.

(** C3, as the code has it: [indexKeyPrefix] is a function of its two
    arguments, and it sends distinct pairs [(typeName, indexName)] to
    distinct prefixes whenever the two type names, or the two index names,
    are free of the delimiter [":"]. *)
Theorem indexKeyPrefix_injective (typeName indexName typeName' indexName' : string) :
  (delimiter_free typeName /\ delimiter_free typeName') \/
  (delimiter_free indexName /\ delimiter_free indexName') ->
  (typeName, indexName) <> (typeName', indexName') ->
  indexKeyPrefix typeName indexName <> indexKeyPrefix typeName' indexName'.
Proof.
  intros Hfree Hne E. apply Hne. rewrite !indexKeyPrefix_bytes in E.
  apply app_inv_head in E.
  destruct Hfree as [[H1 H2]|[H1 H2]].
  - apply split_at_first in E as [Et Ei]; [|done..].
    by rewrite (list_byte_of_string_inj _ _ Et), (list_byte_of_string_inj _ _ Ei).
  - apply split_at_last in E as [Et Ei]; [|done..].
    by rewrite (list_byte_of_string_inj _ _ Et), (list_byte_of_string_inj _ _ Ei).
Qed.

(** Two indexes of one type whose name has no delimiter. *)
Lemma indexKeyPrefix_injective_witness :
  indexKeyPrefix "Item" "Category" <> indexKeyPrefix "Item" "Name:Full".
Proof.
  apply indexKeyPrefix_injective.
  - left. split; unfold delimiter_free; vm_compute; intros H;
      repeat (apply elem_of_cons in H as [H|H]; [discriminate H|]);
      by apply elem_of_nil in H.
  - intros H. discriminate H.
Defined.

(** C3, as stated, fails: the pairs ("a:b", "c") and ("a", "b:c") are
    distinct and have the same prefix, [_bhIndex:a:b:c]. *)
Lemma indexKeyPrefix_collision :
  ("a:b", "c") <> ("a", "b:c") /\
  indexKeyPrefix "a:b" "c" = indexKeyPrefix "a" "b:c".
Proof. split; [intros H; discriminate H | reflexivity]. Qed.

(** ** The store keeps its keys in order *)

Lemma store_set_keys (s : list (bytes * bytes)) (k v : bytes) (x : bytes * bytes) :
  x ∈ store_set s k v -> x = (k, v) \/ x ∈ s.
Proof.
  induction s as [|[k' v'] s IH]; simpl.
  - intros H. apply list_elem_of_singleton in H. by left.
  - destruct (Compare k k' <? 0); [|destruct (Compare k k' =? 0)]; intros H;
      apply elem_of_cons in H as [->|H]; auto.
    + right. by right.
    + right. by left.
    + destruct (IH H) as [->|?]; auto. right. by right.
Qed.

Lemma store_set_sorted (s : list (bytes * bytes)) (k v : bytes) :
  sorted_store s -> sorted_store (store_set s k v).
Proof.
  unfold sorted_store. induction 1 as [|[k' v'] s Hs IH Hall]; simpl.
  - repeat constructor.
  - destruct (Z.ltb_spec (Compare k k') 0) as [Hlt|Hge].
    + constructor; [by constructor|]. constructor; [done|].
      eapply Forall_impl; [exact Hall|]. intros x Hx. by transitivity k'.
    + destruct (Z.eqb_spec (Compare k k') 0) as [E|Hne].
      * apply Compare_eq in E as ->. by constructor.
      * constructor; [done|]. apply Forall_forall. intros x Hx.
        apply store_set_keys in Hx as [->|Hx].
        -- unfold bytes_lt. simpl. rewrite Compare_antisym. lia.
        -- rewrite Forall_forall in Hall. by apply Hall.
Qed.

Lemma store_delete_sorted (s : list (bytes * bytes)) (k : bytes) :
  sorted_store s -> sorted_store (store_delete s k).
Proof.
  unfold sorted_store, store_delete. induction 1 as [|x s Hs IH Hall]; [constructor|].
  rewrite filter_cons. destruct (decide _); [|done].
  constructor; [done|]. apply Forall_forall. intros y Hy.
  apply list_elem_of_filter in Hy as [_ Hy]. rewrite Forall_forall in Hall. by apply Hall.
Qed.

Lemma store_get_set (s : list (bytes * bytes)) (k v : bytes) :
  sorted_store s -> store_get (store_set s k v) k = Some v.
Proof.
  assert (Equal k k = true) as Hkk by by apply Equal_eq.
  unfold sorted_store. induction 1 as [|[k' v'] s Hs IH Hall]; simpl.
  - by rewrite Hkk.
  - destruct (Z.ltb_spec (Compare k k') 0) as [Hlt|Hge]; [simpl; by rewrite Hkk|].
    destruct (Z.eqb_spec (Compare k k') 0) as [E|Hne]; [simpl; by rewrite Hkk|].
    simpl. destruct (Equal k' k) eqn:E; [|done].
    apply Equal_eq in E as ->. by rewrite Compare_refl in Hne.
Qed.

(** A fresh iterator sees the entries in key order. *)
Lemma Txn_NewIterator_sorted (tx : Txn) :
  sorted_store (kv tx) -> sorted_items (Iterator_items (Txn_NewIterator tx)).
Proof.
  unfold sorted_store, sorted_items. simpl.
  induction 1 as [|x s Hs IH Hall]; simpl; constructor; [done|].
  apply Forall_forall. intros item Hin. apply list_elem_of_In, in_map_iff in Hin
    as (y & <- & Hy). simpl. rewrite Forall_forall in Hall.
  by apply Hall, list_elem_of_In.
Qed.

(** ** C9: index availability *)

Lemma HasPrefix_not_below (k p : bytes) : HasPrefix k p = true -> 0 <= Compare k p.
Proof.
  revert k; induction p as [|c p IH]; intros [|y k]; simpl; try done.
  intros H. apply andb_true_iff in H as [Hy Hk]. apply byte_eqb_eq in Hy as ->.
  rewrite N.compare_refl. by apply IH.
Qed.

(** A key that is not below [p] and does not start with [p] is above every
    key that starts with [p]. *)
Lemma HasPrefix_above (p k k' : bytes) :
  0 <= Compare k p -> HasPrefix k p = false -> Compare k k' < 0 ->
  HasPrefix k' p = false.
Proof.
  revert k k'; induction p as [|c p IH]; intros [|y k] [|z k']; simpl; try done.
  destruct (N.compare_spec (Byte.to_N y) (Byte.to_N c)) as [E|L|G]; [|lia|].
  - apply to_N_inj in E as ->.
    replace (Byte.eqb c c) with true by (symmetry; by apply byte_eqb_eq). simpl.
    intros Hk Hp. destruct (N.compare_spec (Byte.to_N c) (Byte.to_N z)) as [E|L|G];
      [| |lia].
    + apply to_N_inj in E as <-.
      replace (Byte.eqb c c) with true by (symmetry; by apply byte_eqb_eq). simpl.
      by apply IH.
    + intros _. destruct (Byte.eqb z c) eqn:Hz; [|done].
      apply byte_eqb_eq in Hz as ->. lia.
  - intros _ _. destruct (N.compare_spec (Byte.to_N y) (Byte.to_N z)) as [E|L|G'];
      [| |lia].
    + apply to_N_inj in E as <-. intros _.
      destruct (Byte.eqb y c) eqn:Hz; [|done]. apply byte_eqb_eq in Hz as ->. lia.
    + intros _. destruct (Byte.eqb z c) eqn:Hz; [|done].
      apply byte_eqb_eq in Hz as ->. lia.
Qed.

(** On a store in key order, [Seek(prefix)] followed by
    [ValidForPrefix(prefix)] tells whether some key starts with [prefix]. *)
Lemma Seek_ValidForPrefix (it : Iterator) (prefix : bytes) :
  sorted_items (Iterator_items it) ->
  Iterator_ValidForPrefix (Iterator_Seek it prefix) prefix = true <->
  exists_under (Iterator_items it) prefix.
Proof.
  unfold Iterator_ValidForPrefix, Iterator_Seek, exists_under. simpl.
  generalize (Iterator_items it) as items. clear it.
  induction 1 as [|x items Hs IH Hall]; simpl.
  - split; [done|]. intros (item & Hin & _). by apply elem_of_nil in Hin.
  - destruct (Z.ltb_spec (Compare (Item_Key x) prefix) 0) as [Hlt|Hge].
    + rewrite IH. split.
      * intros (item & Hin & Hp). exists item. split; [by right|done].
      * intros (item & Hin & Hp). exists item. split; [|done].
        apply elem_of_cons in Hin as [->|Hin]; [|done].
        apply HasPrefix_not_below in Hp. lia.
    + split.
      * intros Hp. exists x. split; [by left|done].
      * intros (item & Hin & Hp). apply elem_of_cons in Hin as [->|Hin]; [done|].
        destruct (HasPrefix (Item_Key x) prefix) eqn:Hx; [done|].
        rewrite Forall_forall in Hall. specialize (Hall _ Hin).
        by rewrite (HasPrefix_above prefix (Item_Key x) (Item_Key item)) in Hp.
Qed.

(** C9: on a store in key order, [indexExists] answers true when no record
    exists under the type prefix, whatever the index name; when a record of
    the type exists, it answers true exactly when an index entry exists
    under the index prefix of [(typeName, indexName)]. *)
Theorem indexExists_spec `{Host} (it : Iterator) (typeName indexName : string) :
  sorted_items (Iterator_items it) ->
  let records := exists_under (Iterator_items it) (typePrefix typeName) in
  let entries := exists_under (Iterator_items it) (indexKeyPrefix typeName indexName) in
  (~ records -> snd (indexExists it typeName indexName) = true) /\
  (records -> (snd (indexExists it typeName indexName) = true <-> entries)).
Proof.
  intros Hs records entries. unfold indexExists.
  pose proof (Seek_ValidForPrefix it (typePrefix typeName) Hs) as Ht.
  pose proof (Seek_ValidForPrefix (Iterator_Seek it (typePrefix typeName))
                (indexKeyPrefix typeName indexName) Hs) as Hi.
  fold records in Ht. change (Iterator_items (Iterator_Seek it (typePrefix typeName)))
    with (Iterator_items it) in Hi. fold entries in Hi.
  destruct (Iterator_ValidForPrefix (Iterator_Seek it (typePrefix typeName))
              (typePrefix typeName)); simpl.
  - split; [intros Hn; exfalso; by apply Hn, Ht|]. intros _.
    destruct (Iterator_ValidForPrefix _ (indexKeyPrefix typeName indexName)); simpl;
      [tauto|]. rewrite <- Hi. done.
  - split; [done|]. intros Hr. apply Ht in Hr. discriminate Hr.
Qed.

(** ** C4: the size of a batch *)

Section Batches.
Context `{host : Host}.
Local Open Scope nat_scope.
Local Arguments iteratorKeyMinCacheSize : simpl never.

Lemma typeKeys_loop_batch (prefix : bytes) (pos : list Item) (nKeys : list KeySlice)
    (pos' : list Item) (keys : list KeySlice) :
  length nKeys <= iteratorKeyMinCacheSize ->
  typeKeys_loop prefix pos nKeys = (pos', inr keys) ->
  length keys <= iteratorKeyMinCacheSize /\
  (length keys < iteratorKeyMinCacheSize -> valid_at pos' prefix = false).
Proof.
  revert nKeys; induction pos as [|item pos IH]; intros nKeys Hn; simpl;
    destruct (Nat.ltb_spec (length nKeys) iteratorKeyMinCacheSize) as [Hlt|Hge];
    try (intros [= <- <-]; split; [lia|try done; lia]).
  destruct (HasPrefix (Item_Key item) prefix) eqn:Hp; simpl.
  - apply IH. rewrite length_app. simpl. lia.
  - intros [= <- <-]. split; [lia|]. intros _. simpl. done.
Qed.

Lemma keyFieldKeys_loop_batch (prefix : bytes) (criteria : list Criterion)
    (typeName : string) (dataType : DataType) (pos : list Item) (nKeys : list KeySlice)
    (pos' : list Item) (keys : list KeySlice) :
  length nKeys <= iteratorKeyMinCacheSize ->
  keyFieldKeys_loop prefix criteria typeName dataType pos nKeys = (pos', inr keys) ->
  length keys <= iteratorKeyMinCacheSize /\
  (length keys < iteratorKeyMinCacheSize -> valid_at pos' prefix = false).
Proof.
  revert nKeys; induction pos as [|item pos IH]; intros nKeys Hn; simpl;
    destruct (Nat.ltb_spec (length nKeys) iteratorKeyMinCacheSize) as [Hlt|Hge];
    try (intros [= <- <-]; split; [lia|try done; lia]).
  destruct (HasPrefix (Item_Key item) prefix) eqn:Hp; simpl.
  - destruct (Item_Value item (decodeValue dataType)) as [e|val]; [done|].
    destruct (matchesAllCriteria criteria (Item_Key item) true typeName (Some val))
      as [e|[|]]; [done| |].
    + apply IH. rewrite length_app. simpl. lia.
    + apply IH. lia.
  - intros [= <- <-]. split; [lia|]. intros _. simpl. done.
Qed.

(** The key lists that can enter a batch are those of the index entries
    under the prefix from the position on. *)
Lemma indexKeys_loop_batch (prefix : bytes) (criteria : list Criterion)
    (pos : list Item) (nKeys : list bytes) (pos' : list Item) (keys : list bytes)
    (m : nat) :
  (forall item l, item ∈ prefix_run pos prefix -> Item_Value item decode = inr l ->
                  length l <= m) ->
  length nKeys <= iteratorKeyMinCacheSize - 1 + m ->
  indexKeys_loop prefix criteria pos nKeys = (pos', inr keys) ->
  length keys <= iteratorKeyMinCacheSize - 1 + m /\
  (length keys < iteratorKeyMinCacheSize -> valid_at pos' prefix = false).
Proof.
  revert nKeys; induction pos as [|item pos IH]; intros nKeys Hm Hn;
    cbn [indexKeys_loop];
    destruct (Nat.ltb_spec (length nKeys) iteratorKeyMinCacheSize) as [Hlt|Hge];
    try (intros [= <- <-]; split; [lia|try done; lia]).
  cbn [prefix_run] in Hm.
  destruct (HasPrefix (Item_Key item) prefix) eqn:Hp; cbn [negb].
  - destruct (matchesAllCriteria criteria (drop (length prefix) (Item_Key item)) true ""
                None) as [e|[|]]; [done| |].
    + destruct (Item_Value item decode) as [e|l] eqn:Hl.
      * apply IH; [|lia]. intros i l Hi. apply Hm. by right.
      * apply IH; [intros i l' Hi; apply Hm; by right|].
        rewrite length_app. specialize (Hm item l ltac:(by left) Hl). lia.
    + apply IH; [|lia]. intros i l Hi. apply Hm. by right.
  - intros [= <- <-]. split; [lia|]. intros _. exact Hp.
Qed.

(** Some bound always exists: the total length of the key lists that
    decode. *)
Lemma decoded_bound (items : list Item) (item : Item) (l : keyList) :
  item ∈ items -> Item_Value item decode = inr l ->
  length l <= length (concat (omap (fun item => match Item_Value item decode with
                                                | inl _ => None
                                                | inr l => Some l
                                                end) items)).
Proof.
  intros Hin Hl. induction items as [|x items IH]; [by apply elem_of_nil in Hin|].
  simpl. apply elem_of_cons in Hin as [<-|Hin].
  - rewrite Hl. simpl. rewrite length_app. apply Nat.le_add_r.
  - specialize (IH Hin). destruct (Item_Value x decode); simpl; [done|].
    rewrite length_app. etrans; [exact IH|]. apply Nat.le_add_l.
Qed.

(** C4, as the code has it: a batch of the primary-key scan or of the
    full-type scan holds at most [iteratorKeyMinCacheSize] = 100 keys; a
    batch of the indexed lookup is made of whole key lists and holds at most
    99 + m keys, where no key list of an index entry still to visit (an
    entry under the index prefix, from the iterator's position on) is longer
    than m; and in all three a batch of fewer than 100 keys leaves the
    iterator at the end of the prefix. *)
Theorem nextKeys_batch_size (p : producer) (it : Iterator) (keys : list bytes) :
  snd (call p it) = inr keys ->
  match p with
  | indexKeys prefix _ =>
      forall m,
        (forall item l, item ∈ prefix_run (Iterator_pos it) prefix ->
                        Item_Value item decode = inr l -> length l <= m) ->
        length keys <= iteratorKeyMinCacheSize - 1 + m
  | _ => length keys <= iteratorKeyMinCacheSize
  end /\
  (length keys < iteratorKeyMinCacheSize ->
   Iterator_ValidForPrefix (fst (call p it)) (producer_prefix p) = false).
Proof.
  unfold call, read_slices, Iterator_ValidForPrefix.
  destruct p as [prefix criteria typeName dataType|prefix|prefix criteria]; simpl.
  - destruct (keyFieldKeys_loop _ _ _ _ _ _) as [pos' [e|slices]] eqn:E; simpl; [done|].
    intros [= <-]. rewrite length_map.
    apply (keyFieldKeys_loop_batch _ _ _ _ _ [] pos' slices) in E; [done|simpl; lia].
  - destruct (typeKeys_loop _ _ _) as [pos' [e|slices]] eqn:E; simpl; [done|].
    intros [= <-]. rewrite length_map.
    apply (typeKeys_loop_batch _ _ [] pos' slices) in E; [done|simpl; lia].
  - destruct (indexKeys_loop _ _ _ _) as [pos' r] eqn:E. simpl. intros ->. split.
    + intros m Hm.
      apply (indexKeys_loop_batch _ _ _ [] pos' keys m Hm) in E; [tauto|simpl; lia].
    + apply (indexKeys_loop_batch _ _ _ [] pos' keys _
               (decoded_bound (prefix_run (Iterator_pos it) prefix))) in E;
        [tauto|simpl; lia].
Qed.

End Batches.

(** ** Runs on the sample store *)

Section SampleStore.
#[local] Existing Instance Sample.host.

Lemma shop_sorted :
  sorted_items (Iterator_items (Txn_NewIterator (Sample.sound_tx Sample.shop))).
Proof. unfold sorted_items. vm_compute. repeat constructor. Qed.

(** The indexed lookup over the sample store: one batch of three keys, from
    key lists of at most two keys. *)
Lemma nextKeys_batch_size_witness :
  let it := Iterator_Seek (Txn_NewIterator (Sample.sound_tx Sample.shop))
              (indexKeyPrefix "T" "f") in
  let keys := [Sample.bs "bh_T:k1"; Sample.bs "bh_T:k3"; Sample.bs "bh_T:k2"] in
  snd (call (indexKeys (indexKeyPrefix "T" "f") []) it) = inr keys /\
  (length keys <= iteratorKeyMinCacheSize - 1 + 2)%nat.
Proof.
  intros it keys.
  assert (snd (call (indexKeys (indexKeyPrefix "T" "f") []) it) = inr keys) as Hrun
    by (vm_compute; reflexivity).
  split; [exact Hrun|].
  apply (proj1 (nextKeys_batch_size (indexKeys (indexKeyPrefix "T" "f") []) it keys
                  Hrun)).
  intros item l Hin.
  repeat (apply elem_of_cons in Hin as [->|Hin];
          [vm_compute; intros E; inversion E; lia|]).
  by apply elem_of_nil in Hin.
Defined.

(** C4, as stated, fails for the indexed lookup: over a store with one index
    entry that 101 records share, the iterator that [newIterator] builds
    for a query on the indexed field holds the indexed-lookup closure, and
    one call of it returns a batch of 101 keys. *)
Lemma nextKeys_batch_over_100 :
  let i := fst (newIterator (Sample.sound_tx Sample.crowd) "T" Sample.by_f) in
  exists criteria keys,
    nextKeys i = Some (indexKeys (indexKeyPrefix "T" "f") criteria) /\
    snd (call (indexKeys (indexKeyPrefix "T" "f") criteria) (iter i)) = inr keys /\
    length keys = 101%nat /\
    ~ (length keys <= iteratorKeyMinCacheSize)%nat.
Proof.
  eexists _, _. split; [vm_compute; reflexivity|].
  split; [vm_compute; reflexivity|]. split; [reflexivity|].
  vm_compute. lia.
Qed.

(** The sample store has records of [T], so the index [f] is usable exactly
    when it has an entry. *)
Lemma indexExists_spec_witness :
  let it := Txn_NewIterator (Sample.sound_tx Sample.shop) in
  snd (indexExists it "T" "f") = true <->
  exists_under (Iterator_items it) (indexKeyPrefix "T" "f").
Proof.
  intros it. apply (indexExists_spec it "T" "f" shop_sorted).
  exists (mkItem (Sample.bs "bh_T:k2") (Sample.bs "b") None).
  split; [|reflexivity]. vm_compute. do 3 right. left.
Defined.

End SampleStore.

(** ** C6, C10 and C2: index maintenance *)

Section Maintenance.
Context `{host : Host}.

Lemma add_nonempty (v : keyList) (key : bytes) : add v key <> [].
Proof.
  unfold add. destruct (Nat.ltb_spec (search_key v key) (length v)) as [Hlt|Hge]; simpl.
  - destruct (Equal (at_ v (search_key v key)) key).
    + intros ->. simpl in Hlt. lia.
    + by destruct (take (search_key v key) v).
  - by destruct (take (search_key v key) v).
Qed.

Lemma store_get_delete (s : list (bytes * bytes)) (k : bytes) :
  store_get (store_delete s k) k = None.
Proof.
  unfold store_delete. induction s as [|[k' v] s IH]; [done|].
  rewrite filter_cons. destruct (decide (Equal (k', v).1 k = false)) as [E|E]; [|done].
  simpl in *. by rewrite E.
Qed.


(** C6: [indexUpdate] never stores an index entry whose key list is empty.
    Once the index function has given a key and the entry is fetched, in add
    mode the list after [add] is not empty and the call is the write of its
    encoding (or the encoder's error), never a deletion; in delete mode the
    call is the deletion of the index entry's key when the list after
    [remove] is empty, and the write of the encoded list otherwise; and a
    deletion that succeeds leaves no entry under the key. *)
Theorem indexUpdate_never_stores_empty (typeName indexName : string) (index : Index)
    (tx : Txn) (key : bytes) (value : Datum) (fieldKey : bytes) (indexValue : keyList) :
  index indexName value = (Some fieldKey, None) ->
  let indexKey := indexKeyPrefix typeName indexName ++ fieldKey in
  fetched tx indexKey indexValue ->
  (add indexValue key <> [] /\
   indexUpdate typeName indexName index tx key value false =
     match encode (add indexValue key) with
     | inl e => (tx, Some e)
     | inr iVal => Txn_Set tx indexKey iVal
     end) /\
  (indexUpdate typeName indexName index tx key value true =
     match remove indexValue key with
     | [] => Txn_Delete tx indexKey
     | _ :: _ =>
         match encode (remove indexValue key) with
         | inl e => (tx, Some e)
         | inr iVal => Txn_Set tx indexKey iVal
         end
     end) /\
  (forall tx', Txn_Delete tx indexKey = (tx', None) ->
               store_get (kv tx') indexKey = None).
Proof.
  intros Hindex indexKey Hfetched. pose proof (add_nonempty indexValue key) as Hadd.
  assert (forall delete,
    indexUpdate typeName indexName index tx key value delete =
      let indexValue := if delete then remove indexValue key else add indexValue key in
      if (length indexValue =? 0)%nat then Txn_Delete tx indexKey
      else match encode indexValue with
           | inl e => (tx, Some e)
           | inr iVal => Txn_Set tx indexKey iVal
           end) as Hrun.
  { intros delete. unfold indexUpdate. rewrite Hindex. fold indexKey.
    destruct Hfetched as [[-> ->]|(item & -> & ->)]; reflexivity. }
  split_and!.
  - done.
  - rewrite Hrun. simpl. by destruct (add indexValue key).
  - rewrite Hrun. simpl. by destruct (remove indexValue key).
  - unfold Txn_Delete. destruct (deleteErr tx (writes tx) indexKey); [done|].
    intros tx' [= <-]. simpl. apply store_get_delete.
Qed.




(** The codec errors [indexUpdate] does return: the index function's error
    when the function also returns a key, the error of decoding the fetched
    entry, and the error of encoding the new key list. *)
Lemma indexUpdate_propagates (typeName indexName : string) (index : Index) (tx : Txn)
    (key : bytes) (value : Datum) (delete : bool) (fieldKey : bytes) (e : error) :
  let indexKey := indexKeyPrefix typeName indexName ++ fieldKey in
  (index indexName value = (Some fieldKey, Some e) ->
   indexUpdate typeName indexName index tx key value delete = (tx, Some e)) /\
  (index indexName value = (Some fieldKey, None) ->
   forall item, Txn_Get tx indexKey = inr item -> Item_Value item decode = inl e ->
   indexUpdate typeName indexName index tx key value delete = (tx, Some e)) /\
  (index indexName value = (Some fieldKey, None) ->
   forall indexValue, fetched tx indexKey indexValue ->
   let indexValue := if delete then remove indexValue key else add indexValue key in
   indexValue <> [] -> encode indexValue = inl e ->
   indexUpdate typeName indexName index tx key value delete = (tx, Some e)).
Proof.
  intros indexKey. split_and!.
  - intros Hindex. unfold indexUpdate. by rewrite Hindex.
  - intros Hindex item Hget Hdec. unfold indexUpdate. rewrite Hindex. fold indexKey.
    by rewrite Hget, Hdec.
  - intros Hindex indexValue Hfetched indexValue' Hne Henc.
    unfold indexUpdate. rewrite Hindex. fold indexKey.
    destruct Hfetched as [[-> ->]|(item & -> & ->)]; simpl; fold indexValue';
      rewrite Henc; by destruct indexValue'.
Qed.

End Maintenance.

Section SampleMaintenance.
#[local] Existing Instance Sample.host.

(** Removing the only record with field value [b] deletes the index entry
    of [b]. *)
Lemma indexUpdate_never_stores_empty_witness :
  let tx := Sample.sound_tx Sample.shop in
  indexUpdate "T" "f" Sample.by_value tx (Sample.bs "bh_T:k2") (Sample.bs "b") true
    = Txn_Delete tx (indexKeyPrefix "T" "f" ++ Sample.bs "b") /\
  store_get
    (kv (fst (indexUpdate "T" "f" Sample.by_value tx (Sample.bs "bh_T:k2")
                (Sample.bs "b") true)))
    (indexKeyPrefix "T" "f" ++ Sample.bs "b") = None.
Proof.
  intros tx.
  assert (fetched tx (indexKeyPrefix "T" "f" ++ Sample.bs "b") [Sample.bs "bh_T:k2"])
    as Hfetched.
  { right. eexists. split; [vm_compute; reflexivity|vm_compute; reflexivity]. }
  destruct (indexUpdate_never_stores_empty "T" "f" Sample.by_value tx
              (Sample.bs "bh_T:k2") (Sample.bs "b") (Sample.bs "b")
              [Sample.bs "bh_T:k2"] eq_refl Hfetched) as (_ & Hdelete & Hgone).
  split.
  - rewrite Hdelete. reflexivity.
  - rewrite Hdelete. apply Hgone. vm_compute. reflexivity.
Defined.


(** C2 at the failing inputs.  An index function that fails the way Go
    functions do, with a [nil] key next to its error, makes [indexUpdate]
    return no error and write nothing, for every host and in both modes;
    so [indexAdd] over such an index succeeds.  And over a store whose
    index entry for the queried field does not decode, the indexed-lookup
    closure returns an empty batch and no error, [Next] returns (nil, nil)
    and [Error] stays nil: the failure of [decode] reaches no caller. *)
Lemma codec_errors_dropped :
  (forall (host : Host) (typeName indexName : string) (tx : Txn) (key : bytes)
          (value : Datum) (delete : bool) (e : error),
     indexUpdate typeName indexName (fun _ _ => (None, Some e)) tx key value delete
       = (tx, None)) /\
  indexAdd (mkStorer "T" [("f", Sample.failing (ErrOther "encode field f"))])
    (Sample.sound_tx []) (Sample.bs "bh_T:k1") (Sample.bs "a")
    = (Sample.sound_tx [], None) /\
  (let tx := Sample.sound_tx Sample.torn in
   let i := fst (newIterator tx "T" Sample.by_f) in
   decode (Sample.bs "bh_T:k1") = inl (ErrOther "decode: unexpected EOF") /\
   nextKeys i = Some (indexKeys (indexKeyPrefix "T" "f") []) /\
   snd (call (indexKeys (indexKeyPrefix "T" "f") []) (iter i)) = inr [] /\
   snd (Next i) = (None, None) /\
   Error (fst (Next i)) = None).
Proof.
  split; [reflexivity|]. split; [reflexivity|].
  split_and!; vm_compute; reflexivity.
Qed.

End SampleMaintenance.

(** ** C7 and C8: the iterator *)

Section Iteration.
Context `{host : Host}.

(** The flag [newIterator] leaves in the query: the flag it was given when
    no index is designated, the outcome of [indexExists] otherwise. *)
Lemma newIterator_badIndex (tx : Txn) (typeName : string) (query : Query) :
  Query_badIndex (snd (newIterator tx typeName query)) =
    if String.eqb (Query_index query) "" then Query_badIndex query
    else negb (snd (indexExists (Txn_NewIterator tx) typeName (Query_index query))).
Proof.
  unfold newIterator.
  destruct (String.eqb (Query_index query) ""); simpl.
  - repeat match goal with
           | |- context [if ?x then _ else _] => destruct x; simpl
           end; reflexivity.
  - destruct (indexExists _ _ _) as [it' ex]. simpl.
    repeat match goal with
           | |- context [if ?x then _ else _] => destruct x; simpl
           end; reflexivity.
Qed.

(** C7: [newIterator] stores exactly one of the three closures, picked in
    this order: the primary-key scan when the designated field is [Key] and
    the index is usable, the full-type scan when the index is unusable or a
    criterion on the designated field needs a match function, the indexed
    lookup otherwise.  Usable is what the availability check says: the
    answer of [indexExists] on a fresh iterator of the transaction when a
    field is designated (on a store in key order: no record of the type
    exists, or an entry exists under the index prefix), the query's flag as
    it came when none is; [newIterator] leaves its negation in the query's
    [badIndex] flag.  So a query whose designated field has a match-function
    criterion never gets the indexed lookup, usable index or not. *)
Theorem newIterator_strategy (tx : Txn) (typeName : string) (query : Query) :
  let i := fst (newIterator tx typeName query) in
  let items := Iterator_items (Txn_NewIterator tx) in
  let usable :=
    if String.eqb (Query_index query) "" then negb (Query_badIndex query)
    else snd (indexExists (Txn_NewIterator tx) typeName (Query_index query)) in
  let criteria := default [] (Query_fieldCriteria query !! Query_index query) in
  strategy_of <$> nextKeys i =
    Some (if String.eqb (Query_index query) Key && usable then PrimaryKeyScan
          else if negb usable || hasMatchFunc criteria then FullTypeScan
          else IndexedLookup) /\
  Query_badIndex (snd (newIterator tx typeName query)) = negb usable /\
  (hasMatchFunc criteria = true -> strategy_of <$> nextKeys i <> Some IndexedLookup) /\
  (sorted_items items -> Query_index query <> "" ->
   (usable = true <->
    ~ exists_under items (typePrefix typeName) \/
    exists_under items (indexKeyPrefix typeName (Query_index query)))).
Proof.
  intros i items usable criteria.
  assert (Query_badIndex (snd (newIterator tx typeName query)) = negb usable) as Hflag.
  { rewrite newIterator_badIndex. subst usable.
    destruct (String.eqb (Query_index query) ""); [|done]. by rewrite negb_involutive. }
  assert (strategy_of <$> nextKeys i =
    Some (if String.eqb (Query_index query) Key && usable then PrimaryKeyScan
          else if negb usable || hasMatchFunc criteria then FullTypeScan
          else IndexedLookup)) as Hsel.
  { subst i usable criteria. unfold newIterator.
    destruct (String.eqb (Query_index query) ""); simpl.
    - by destruct (String.eqb (Query_index query) Key), (Query_badIndex query),
        (hasMatchFunc _).
    - destruct (indexExists _ _ _) as [it' ex]. simpl.
      by destruct (String.eqb (Query_index query) Key), ex, (hasMatchFunc _). }
  split_and!; [exact Hsel|exact Hflag| |].
  - intros Hmatch. rewrite Hsel, Hmatch.
    destruct (String.eqb (Query_index query) Key && usable); [done|].
    by rewrite orb_true_r.
  - intros Hs Hne. subst usable.
    destruct (String.eqb_spec (Query_index query) "") as [E|_]; [done|].
    unfold indexExists.
    pose proof (Seek_ValidForPrefix (Txn_NewIterator tx) (typePrefix typeName) Hs) as Ht.
    pose proof (Seek_ValidForPrefix
                  (Iterator_Seek (Txn_NewIterator tx) (typePrefix typeName))
                  (indexKeyPrefix typeName (Query_index query)) Hs) as Hi.
    fold items in Ht.
    change (Iterator_items (Iterator_Seek (Txn_NewIterator tx) (typePrefix typeName)))
      with items in Hi.
    destruct (Iterator_ValidForPrefix
                (Iterator_Seek (Txn_NewIterator tx) (typePrefix typeName))
                (typePrefix typeName)); simpl.
    + destruct (Iterator_ValidForPrefix _ (indexKeyPrefix typeName (Query_index query)));
        simpl.
      * split; [|done]. intros _. right. by apply Hi.
      * split; [done|]. intros [Hn|He]; [exfalso; by apply Hn, Ht|].
        apply Hi in He. discriminate He.
    + split; [|done]. intros _. left. intros Hr. apply Ht in Hr. discriminate Hr.
Qed.

(** With an error recorded, [Next] returns (nil, nil) and touches nothing. *)
Lemma Next_with_error (i : iterator) (e : error) :
  Error i = Some e -> Next i = (i, (None, None)).
Proof. unfold Error, Next. by intros ->. Qed.

(** C8: the error state is sticky.  Once an error is recorded in the
    iterator, after any number of further calls of [Next] the iterator is
    the same (nothing is produced, the cache and the store iterator stay as
    they are), the next call returns (nil, nil), and [Error] returns the
    recorded error. *)
Theorem Next_error_sticky (i : iterator) (e : error) (n : nat) :
  Error i = Some e ->
  Next_times n i = i /\
  Next (Next_times n i) = (i, (None, None)) /\
  Error (Next_times n i) = Some e.
Proof.
  intros He.
  assert (Next_times n i = i) as ->.
  { unfold Next_times. induction n as [|n IH]; [done|].
    simpl. by rewrite IH, (Next_with_error i e He). }
  split_and!; [done|by apply (Next_with_error i e)|done].
Qed.

(** The three ways [Next] records an error: the batch producer fails, the
    point lookup of the candidate key fails, the read of its value fails. *)
Lemma Next_records_producer_error (i : iterator) (produce : producer) (e : error) :
  Error i = None -> nextKeys i = Some produce -> keyCache i = [] ->
  snd (call produce (iter i)) = inl e ->
  snd (Next i) = (None, None) /\ Error (fst (Next i)) = Some e.
Proof.
  unfold Error, Next. intros -> -> -> Hcall. simpl.
  destruct (call produce (iter i)) as [iter' r]. simpl in Hcall. by subst r.
Qed.

Lemma Next_records_lookup_error (i : iterator) (produce : producer) (key : bytes)
    (keyCache' : list bytes) (e : error) :
  Error i = None -> nextKeys i = Some produce -> keyCache i = key :: keyCache' ->
  Txn_Get (tx i) key = inl e ->
  snd (Next i) = (None, None) /\ Error (fst (Next i)) = Some e.
Proof.
  unfold Error, Next. intros -> -> Hcache Hget. rewrite Hcache. simpl.
  by rewrite Hcache, Hget.
Qed.

Lemma Next_records_value_error (i : iterator) (produce : producer) (key : bytes)
    (keyCache' : list bytes) (item : Item) (e : error) :
  Error i = None -> nextKeys i = Some produce -> keyCache i = key :: keyCache' ->
  Txn_Get (tx i) key = inr item -> Item_valErr item = Some e ->
  snd (Next i) = (None, None) /\ Error (fst (Next i)) = Some e.
Proof.
  unfold Error, Next. intros -> -> Hcache Hget Hval. rewrite Hcache. simpl.
  rewrite Hcache, Hget. unfold Item_Value. by rewrite Hval.
Qed.

(** [Next] returns (nil, nil) without recording an error only at the end of
    the scan: the cache is empty and the producer returns an empty batch.
    (So the default of [Next] for an empty cache after the fill is never
    read.) *)
Lemma Next_nil_without_error (i : iterator) (produce : producer) :
  Error i = None -> nextKeys i = Some produce ->
  snd (Next i) = (None, None) -> Error (fst (Next i)) = None ->
  keyCache i = [] /\ snd (call produce (iter i)) = inr [].
Proof.
  unfold Error, Next. intros He -> . rewrite He.
  destruct (keyCache i) as [|key keyCache'] eqn:Hcache; simpl.
  - destruct (call produce (iter i)) as [iter' [e|newKeys]]; simpl; [done|].
    destruct newKeys as [|key newKeys]; simpl; [done|].
    destruct (Txn_Get (tx i) key) as [e|item]; simpl; [done|].
    destruct (Item_Value item _) as [e|value]; simpl; done.
  - rewrite Hcache. destruct (Txn_Get (tx i) key) as [e|item]; simpl; [done|].
    destruct (Item_Value item _) as [e|value]; simpl; done.
Qed.

End Iteration.

Section SampleIteration.
#[local] Existing Instance Sample.host.

(** On the sample store the index [f] is usable (records of the type
    exist and so do entries under its prefix): a query on [f] with a
    match-function criterion gets the full-type scan, not the indexed
    lookup. *)
Lemma newIterator_strategy_witness :
  let tx := Sample.sound_tx Sample.shop in
  let items := Iterator_items (Txn_NewIterator tx) in
  strategy_of <$> nextKeys (fst (newIterator tx "T" Sample.by_f_matching))
    <> Some IndexedLookup /\
  (snd (indexExists (Txn_NewIterator tx) "T" "f") = true <->
   ~ exists_under items (typePrefix "T") \/ exists_under items (indexKeyPrefix "T" "f")).
Proof.
  intros tx items.
  destruct (newIterator_strategy tx "T" Sample.by_f_matching) as (_ & _ & Hmatch & Huse).
  split.
  - apply Hmatch. reflexivity.
  - apply Huse; [|discriminate].
    unfold sorted_items. vm_compute. repeat constructor.
Defined.

(** An iterator over the sample store whose transaction fails every point
    lookup: the first [Next] records the error. *)
Lemma Next_error_sticky_witness :
  let e := ErrOther "get" in
  let tx := mkTxn Sample.shop [] (fun _ => Some e) (fun _ => None)
              (fun _ _ _ => None) (fun _ _ => None) (fun slice _ => slice_key slice) in
  let i := fst (Next (fst (newIterator tx "T" Sample.by_f))) in
  Error i = Some e /\
  Next_times 3 i = i /\
  Next (Next_times 3 i) = (i, (None, None)) /\
  Error (Next_times 3 i) = Some e.
Proof.
  intros e tx i.
  assert (Error i = Some e) as He by (vm_compute; reflexivity).
  split; [exact He|]. exact (Next_error_sticky i e 3 He).
Defined.

End SampleIteration.

(** * Further properties of the code *)

(** ** The key list as a set *)

(** Two sorted key lists with the same keys are the same list. *)
Lemma sorted_keys_ext (v w : keyList) :
  sorted_keys v -> sorted_keys w -> (forall x, x ∈ v <-> x ∈ w) -> v = w.
Proof.
  intros Hv Hw Hext. apply (StronglySorted_unique_strong bytes_lt); [|done|done|].
  - intros x1 x2 _ _ H1 H2. exfalso. apply (irreflexivity bytes_lt x1).
    by transitivity x2.
  - apply NoDup_Permutation; [by apply sorted_keys_NoDup..|done].
Qed.

(** When [in] answers true the key is in the list, sorted or not. *)
Lemma in_elem_of (v : keyList) (key : bytes) : in_ v key = true -> key ∈ v.
Proof.
  unfold in_. intros H. apply andb_true_iff in H as [Hlt Heq].
  apply Nat.ltb_lt in Hlt. apply Equal_eq in Heq.
  destruct (lookup_lt_is_Some_2 v _ Hlt) as [x Hx].
  rewrite (at_lookup _ _ _ Hx) in Heq. subst x. by eapply list_elem_of_lookup_2.
Qed.

Lemma add_unfold (v : keyList) (key : bytes) :
  add v key =
    if in_ v key then v
    else take (search_key v key) v ++ key :: drop (search_key v key) v.
Proof. reflexivity. Qed.

Lemma add_elem_of (v : keyList) (key x : bytes) :
  x ∈ add v key <-> x = key \/ x ∈ v.
Proof.
  rewrite add_unfold. destruct (in_ v key) eqn:Hin.
  - split; [by right|]. intros [->|H]; [|done]. by apply in_elem_of.
  - assert (x ∈ v <-> x ∈ take (search_key v key) v \/ x ∈ drop (search_key v key) v)
      as -> by (by rewrite <- elem_of_app, take_drop).
    rewrite elem_of_app, elem_of_cons. tauto.
Qed.

Lemma add_length (v : keyList) (key : bytes) :
  length (add v key) = (if in_ v key then length v else S (length v)).
Proof.
  rewrite add_unfold. destruct (in_ v key); [done|].
  rewrite length_app. simpl. rewrite <- Nat.add_succ_comm.
  cbn [Nat.add]. f_equal. by rewrite <- length_app, take_drop.
Qed.

(** [add] on every key list, sorted or not.  When [in] finds the key the
    list is returned as it is.  When it does not, the key is put in at one
    place and nothing else moves: the list is cut in two and the key stands
    between the parts.  Either way the keys of the result are the key and
    the keys of the list, and the list grows by one exactly when [in] does
    not find the key. *)
Theorem add_elements (v : keyList) (key : bytes) :
  (in_ v key = true -> add v key = v) /\
  (in_ v key = false ->
   exists l1 l2, v = l1 ++ l2 /\ add v key = l1 ++ key :: l2) /\
  (forall x, x ∈ add v key <-> x = key \/ x ∈ v) /\
  length (add v key) = (if in_ v key then length v else S (length v)).
Proof.
  split_and!.
  - intros Hin. by rewrite add_unfold, Hin.
  - intros Hin. exists (take (search_key v key) v), (drop (search_key v key) v).
    split; [by rewrite take_drop|]. by rewrite add_unfold, Hin.
  - intros x. rewrite add_unfold. destruct (in_ v key) eqn:Hin.
    + split; [by right|]. intros [->|H]; [|done]. by apply in_elem_of.
    + assert (x ∈ v <-> x ∈ take (search_key v key) v \/ x ∈ drop (search_key v key) v)
        as -> by (by rewrite <- elem_of_app, take_drop).
      rewrite elem_of_app, elem_of_cons. tauto.
  - rewrite add_unfold. destruct (in_ v key); [done|].
    rewrite length_app. simpl. rewrite <- Nat.add_succ_comm.
    cbn [Nat.add]. f_equal. by rewrite <- length_app, take_drop.
Qed.

(** An unsorted list: the key [03] is found and the list comes back as it
    is; the key [05] is not found and is put in at the searched place. *)
Lemma add_elements_witness :
  add [[x03]; [x09]; [x01]] [x03] = [[x03]; [x09]; [x01]] /\
  exists l1 l2, [[x03]; [x09]; [x01]] = l1 ++ l2 /\
                add [[x03]; [x09]; [x01]] [x05] = l1 ++ [x05] :: l2.
Proof.
  split.
  - apply (proj1 (add_elements [[x03]; [x09]; [x01]] [x03])). reflexivity.
  - apply (proj1 (proj2 (add_elements [[x03]; [x09]; [x01]] [x05]))). reflexivity.
Defined.

(** [in] decides membership on a sorted key list. *)
Theorem in_spec (v : keyList) (key : bytes) :
  sorted_keys v -> (in_ v key = true <-> key ∈ v).
Proof.
  intros Hs. split; [apply in_elem_of|]. intros Hin.
  pose proof (add_present v key Hs Hin) as Hadd.
  pose proof (add_length v key) as Hlen. rewrite Hadd in Hlen.
  destruct (in_ v key); [done|lia].
Qed.

Lemma in_spec_witness :
  in_ [[x01]; [x02; x00]; [x07]] [x02; x00] = true <-> [x02; x00] ∈ [[x01]; [x02; x00]; [x07]].
Proof. apply in_spec. repeat constructor. Defined.

(** After [remove(key)] on a sorted key list the key is not in the list. *)
Theorem remove_not_elem (v : keyList) (key : bytes) :
  sorted_keys v -> key ∉ remove v key.
Proof.
  intros Hs. unfold remove. destruct (search_key_split v key Hs) as (Hr & Hlo & Hhi).
  set (r := search_key v key) in *.
  assert (key ∉ take r v) as Htake.
  { intros Hin. rewrite Forall_forall in Hlo. specialize (Hlo _ Hin).
    rewrite Compare_refl in Hlo. lia. }
  destruct (Nat.ltb_spec r (length v)) as [Hlt|Hge].
  - intros Hin. apply elem_of_app in Hin as [Hin|Hin]; [done|].
    rewrite <- (take_drop r v) in Hs. apply StronglySorted_app in Hs as (_ & _ & Hs2).
    rewrite <- drop_drop in Hin. destruct (drop r v) as [|y l]; [by apply elem_of_nil in Hin|].
    simpl in Hin. rewrite drop_0 in Hin.
    apply StronglySorted_cons in Hs2 as [Hyl _]. apply Forall_cons in Hhi as [Hy _].
    rewrite Forall_forall in Hyl. specialize (Hyl _ Hin). unfold bytes_lt in Hyl.
    lia.
  - rewrite take_ge in Htake by lia. done.
Qed.

Lemma remove_not_elem_witness :
  [x02] ∉ remove [[x01]; [x02]; [x07]] [x02].
Proof. apply remove_not_elem. repeat constructor. Defined.

(** Adding a key that a sorted list does not hold and removing it again
    gives the list back. *)
Theorem remove_add (v : keyList) (key : bytes) :
  sorted_keys v -> key ∉ v -> remove (add v key) key = v.
Proof.
  intros Hs Hnot. pose proof (add_sorted v key Hs) as Hs'.
  rewrite add_unfold in *. destruct (in_ v key) eqn:Hin.
  - by apply in_elem_of in Hin.
  - rewrite (remove_present _ _ _ Hs'). apply take_drop.
Qed.

Lemma remove_add_witness :
  remove (add [[x01]; [x07]] [x02]) [x02] = [[x01]; [x07]].
Proof.
  apply remove_add; [repeat constructor|].
  intros H. repeat (apply elem_of_cons in H as [H|H]; [discriminate H|]).
  by apply elem_of_nil in H.
Defined.

(** Removing a key that a sorted list holds and adding it again gives the
    list back. *)
Theorem add_remove (v : keyList) (key : bytes) :
  sorted_keys v -> key ∈ v -> add (remove v key) key = v.
Proof.
  intros Hs Hin. apply sorted_keys_ext; [by apply add_sorted, remove_sorted|done|].
  intros x. rewrite add_elem_of.
  apply list_elem_of_split in Hin as (l1 & l2 & ->).
  rewrite (remove_present l1 l2 key Hs), !elem_of_app, elem_of_cons. tauto.
Qed.

Lemma add_remove_witness :
  add (remove [[x01]; [x02]; [x07]] [x02]) [x02] = [[x01]; [x02]; [x07]].
Proof. apply add_remove; [repeat constructor|]. right. left. Defined.

(** On a sorted key list the order of two [add]s does not matter. *)
Theorem add_comm (v : keyList) (key1 key2 : bytes) :
  sorted_keys v -> add (add v key1) key2 = add (add v key2) key1.
Proof.
  intros Hs. apply sorted_keys_ext; [by do 2 apply add_sorted..|].
  intros x. rewrite !add_elem_of. tauto.
Qed.

Lemma add_comm_witness :
  add (add [[x03]] [x09]) [x01] = add (add [[x03]] [x01]) [x09].
Proof. apply add_comm. repeat constructor. Defined.

(** ** Reads and writes of the store *)

Lemma Equal_refl (k : bytes) : Equal k k = true.
Proof. by apply Equal_eq. Qed.

Lemma Equal_ne (k k' : bytes) : k <> k' -> Equal k k' = false.
Proof. intros Hne. destruct (Equal k k') eqn:E; [|done]. by apply Equal_eq in E. Qed.

Lemma store_get_set_eq (s : list (bytes * bytes)) (k v : bytes) :
  store_get (store_set s k v) k = Some v.
Proof.
  induction s as [|[k' v'] s IH]; simpl; [by rewrite Equal_refl|].
  destruct (Z.ltb_spec (Compare k k') 0); [simpl; by rewrite Equal_refl|].
  destruct (Z.eqb_spec (Compare k k') 0) as [E|Hne]; [simpl; by rewrite Equal_refl|].
  simpl. rewrite Equal_ne; [done|]. intros ->. by rewrite Compare_refl in Hne.
Qed.

Lemma store_get_set_ne (s : list (bytes * bytes)) (k v k' : bytes) :
  k' <> k -> store_get (store_set s k v) k' = store_get s k'.
Proof.
  intros Hne. induction s as [|[k0 v0] s IH]; simpl.
  - by rewrite Equal_ne.
  - destruct (Z.ltb_spec (Compare k k0) 0); [simpl; by rewrite (Equal_ne k k')|].
    destruct (Z.eqb_spec (Compare k k0) 0) as [E|Hc].
    + apply Compare_eq in E as <-. simpl. by rewrite (Equal_ne k k').
    + simpl. by rewrite IH.
Qed.

Lemma store_get_delete_ne (s : list (bytes * bytes)) (k k' : bytes) :
  k' <> k -> store_get (store_delete s k) k' = store_get s k'.
Proof.
  intros Hne. unfold store_delete. induction s as [|[k0 v0] s IH]; [done|].
  rewrite filter_cons. destruct (decide _) as [E|E]; simpl in *.
  - by rewrite IH.
  - rewrite IH. apply not_false_is_true, Equal_eq in E as ->. by rewrite Equal_ne.
Qed.

Lemma store_delete_absent (s : list (bytes * bytes)) (k : bytes) :
  store_get s k = None -> store_delete s k = s.
Proof.
  unfold store_delete. induction s as [|[k0 v0] s IH]; [done|]. simpl.
  destruct (Equal k0 k) eqn:E; [done|]. intros H.
  rewrite filter_cons. simpl. rewrite E. simpl. by rewrite IH.
Qed.

Lemma store_set_idem (s : list (bytes * bytes)) (k v : bytes) :
  store_set (store_set s k v) k v = store_set s k v.
Proof.
  induction s as [|[k' v'] s IH]; simpl.
  - by rewrite Compare_refl.
  - destruct (Z.ltb_spec (Compare k k') 0) as [Hlt|Hge].
    + simpl. by rewrite Compare_refl.
    + destruct (Z.eqb_spec (Compare k k') 0) as [E|Hne].
      * simpl. by rewrite Compare_refl.
      * simpl. destruct (Z.ltb_spec (Compare k k') 0); [lia|].
        destruct (Z.eqb_spec (Compare k k') 0); [done|]. by rewrite IH.
Qed.

Lemma HasPrefix_app (p s : bytes) : HasPrefix (p ++ s) p = true.
Proof.
  induction p as [|c p IH]; simpl; [by destruct s|].
  rewrite IH, andb_true_r. by apply byte_eqb_eq.
Qed.

Lemma HasPrefix_app_l (k p q : bytes) : HasPrefix k (p ++ q) = true -> HasPrefix k p = true.
Proof.
  revert k; induction p as [|c p IH]; intros [|y k]; simpl; try done.
  intros H. apply andb_true_iff in H as [-> H]. simpl. by apply IH.
Qed.

(** ** What index maintenance touches *)

Section MaintenanceEffects.
Context `{host : Host}.
Local Arguments indexKeyPrefix : simpl never.

(** After the fetch, [indexUpdate] is the write or the deletion of the
    updated list. *)
Lemma indexUpdate_fetched (typeName indexName : string) (index : Index) (tx : Txn)
    (key : bytes) (value : Datum) (delete : bool) (fieldKey : bytes) (l : keyList) :
  index indexName value = (Some fieldKey, None) ->
  fetched tx (indexKeyPrefix typeName indexName ++ fieldKey) l ->
  indexUpdate typeName indexName index tx key value delete =
    match (if delete then remove l key else add l key) with
    | [] => Txn_Delete tx (indexKeyPrefix typeName indexName ++ fieldKey)
    | k :: l' =>
        match encode (k :: l') with
        | inl e => (tx, Some e)
        | inr iVal => Txn_Set tx (indexKeyPrefix typeName indexName ++ fieldKey) iVal
        end
    end.
Proof.
  intros Hindex Hfetched. unfold indexUpdate. rewrite Hindex.
  destruct Hfetched as [[-> ->]|(item & -> & ->)]; simpl;
    by destruct (if delete then remove _ key else add _ key).
Qed.

(** [indexUpdate] changes the entries only: the faults of the store stay. *)
Lemma indexUpdate_faults (typeName indexName : string) (index : Index) (tx : Txn)
    (key : bytes) (value : Datum) (delete : bool) :
  let tx' := fst (indexUpdate typeName indexName index tx key value delete) in
  getErr tx' = getErr tx /\ valueErr tx' = valueErr tx /\
  setErr tx' = setErr tx /\ deleteErr tx' = deleteErr tx.
Proof.
  unfold indexUpdate, Txn_Set, Txn_Delete.
  repeat match goal with
         | |- context [match ?x with _ => _ end] => destruct x eqn:?; simpl
         | |- context [if ?x then _ else _] => destruct x eqn:?; simpl
         end; done.
Qed.

(** Every key other than the index key reads the same after [indexUpdate]. *)
Lemma indexUpdate_other_keys (typeName indexName : string) (index : Index) (tx : Txn)
    (key : bytes) (value : Datum) (delete : bool) (k : bytes) :
  (forall fieldKey, fst (index indexName value) = Some fieldKey ->
                    k <> indexKeyPrefix typeName indexName ++ fieldKey) ->
  store_get (kv (fst (indexUpdate typeName indexName index tx key value delete))) k
    = store_get (kv tx) k.
Proof.
  intros Hne. unfold indexUpdate, Txn_Set, Txn_Delete.
  destruct (index indexName value) as [[fieldKey|] err]; [|done].
  specialize (Hne fieldKey eq_refl).
  repeat match goal with
         | |- context [match ?x with _ => _ end] => destruct x eqn:?; simpl
         | |- context [if ?x then _ else _] => destruct x eqn:?; simpl
         end; try done;
    (by apply store_get_delete_ne) || (by apply store_get_set_ne).
Qed.

(** [indexUpdate] reads and writes one key only, the index key (the prefix
    of the index followed by what the index function returns): every other
    key of the store, the other entries of the same index included, reads
    the same before and after the call, whatever the call returns; and the
    call adds at most one write to the transaction, a write on the index
    key. *)
Theorem indexUpdate_frame (typeName indexName : string) (index : Index) (tx : Txn)
    (key : bytes) (value : Datum) (delete : bool) :
  let tx' := fst (indexUpdate typeName indexName index tx key value delete) in
  (forall k,
     (forall fieldKey, fst (index indexName value) = Some fieldKey ->
                       k <> indexKeyPrefix typeName indexName ++ fieldKey) ->
     store_get (kv tx') k = store_get (kv tx) k) /\
  (tx' = tx \/
   exists fieldKey w,
     fst (index indexName value) = Some fieldKey /\
     writes tx' = (indexKeyPrefix typeName indexName ++ fieldKey, w) :: writes tx).
Proof.
  intros tx'. subst tx'. split.
  - intros k Hne. unfold indexUpdate, Txn_Set, Txn_Delete.
    destruct (index indexName value) as [[fieldKey|] err]; [|done].
    specialize (Hne fieldKey eq_refl).
    repeat match goal with
           | |- context [match ?x with _ => _ end] => destruct x eqn:?; simpl
           | |- context [if ?x then _ else _] => destruct x eqn:?; simpl
           end; try done;
      (by apply store_get_delete_ne) || (by apply store_get_set_ne).
  - unfold indexUpdate, Txn_Set, Txn_Delete.
    destruct (index indexName value) as [[fieldKey|] err]; [|by left].
    repeat match goal with
           | |- context [match ?x with _ => _ end] => destruct x eqn:?; simpl
           | |- context [if ?x then _ else _] => destruct x eqn:?; simpl
           end; try (by left); right; by eexists _, _.
Qed.

(** The prefix of every index of a type starts with the type's index
    namespace, [_bhIndex:typeName:]. *)
Lemma indexKeyPrefix_namespace (typeName indexName : string) (k : bytes) :
  HasPrefix k (indexKeyPrefix typeName indexName) = true ->
  HasPrefix k (list_byte_of_string ("_bhIndex:" ++ typeName ++ ":")) = true.
Proof.
  rewrite indexKeyPrefix_bytes, !list_byte_of_string_app.
  change (list_byte_of_string ":") with [delimiter].
  rewrite (app_assoc _ _ (delimiter :: _)).
  change (delimiter :: list_byte_of_string indexName)
    with ([delimiter] ++ list_byte_of_string indexName).
  rewrite (app_assoc _ [delimiter]), <- (app_assoc _ _ [delimiter]).
  apply HasPrefix_app_l.
Qed.

(** [indexAdd] and [indexDelete] never touch a key outside the index
    namespace of the storer's type: every key that does not start with
    [_bhIndex:typeName:] (every record key, every index entry of another
    type) reads the same before and after the call, with or without
    error. *)
Theorem index_loops_frame (storer : Storer) (tx : Txn) (key : bytes) (data : Datum)
    (k : bytes) :
  HasPrefix k (list_byte_of_string ("_bhIndex:" ++ Storer_Type storer ++ ":")) = false ->
  store_get (kv (fst (indexAdd storer tx key data))) k = store_get (kv tx) k /\
  store_get (kv (fst (indexDelete storer tx key data))) k = store_get (kv tx) k.
Proof.
  intros Hk.
  assert (forall name, HasPrefix k (indexKeyPrefix (Storer_Type storer) name) = false)
    as Hname.
  { intros name. destruct (HasPrefix k (indexKeyPrefix _ name)) eqn:E; [|done].
    apply indexKeyPrefix_namespace in E. congruence. }
  assert (forall name (index : Index) value fieldKey,
            fst (index name value) = Some fieldKey ->
            k <> indexKeyPrefix (Storer_Type storer) name ++ fieldKey) as Hother.
  { intros name index value fieldKey _ ->. specialize (Hname name).
    by rewrite HasPrefix_app in Hname. }
  unfold indexAdd, indexDelete. generalize (Storer_Indexes storer) as indexes.
  intros indexes. split; revert tx; induction indexes as [|[name index] indexes IH];
    intros tx; simpl; try done.
  - pose proof (indexUpdate_other_keys (Storer_Type storer) name index tx key data
                  false k (Hother name index data)) as Hstep.
    destruct (indexUpdate _ name index tx key data false) as [tx' [e|]]; [done|].
    simpl in Hstep. by rewrite IH.
  - pose proof (indexUpdate_other_keys (Storer_Type storer) name index tx key data
                  true k (Hother name index data)) as Hstep.
    destruct (indexUpdate _ name index tx key data true) as [tx' [e|]]; [done|].
    simpl in Hstep. by rewrite IH.
Qed.

(** What lies under the index key after a call without error. *)
Lemma indexUpdate_entry (typeName indexName : string) (index : Index) (tx : Txn)
    (key : bytes) (value : Datum) (delete : bool) (fieldKey : bytes) (l : keyList) :
  index indexName value = (Some fieldKey, None) ->
  let indexKey := indexKeyPrefix typeName indexName ++ fieldKey in
  fetched tx indexKey l ->
  let l' := if delete then remove l key else add l key in
  (forall iVal, encode l' = inr iVal -> decode iVal = inr l') ->
  getErr tx indexKey = None -> valueErr tx indexKey = None ->
  snd (indexUpdate typeName indexName index tx key value delete) = None ->
  let tx' := fst (indexUpdate typeName indexName index tx key value delete) in
  fetched tx' indexKey l' /\
  match l' with
  | [] => store_get (kv tx') indexKey = None
  | _ :: _ => exists iVal, encode l' = inr iVal /\ store_get (kv tx') indexKey = Some iVal
  end.
Proof.
  intros Hindex indexKey Hfetched l' Hcodec Hget Hval.
  rewrite (indexUpdate_fetched _ _ _ _ _ _ _ _ _ Hindex Hfetched).
  fold indexKey l'. destruct l' as [|k0 l0] eqn:Hl'.
  - unfold Txn_Delete. destruct (deleteErr tx (writes tx) indexKey); [done|]. intros _.
    simpl. split; [|apply store_get_delete]. left.
    split; [|done]. unfold Txn_Get. simpl. by rewrite Hget, store_get_delete.
  - destruct (encode (k0 :: l0)) as [e|iVal] eqn:Henc; [done|].
    unfold Txn_Set. destruct (setErr tx (writes tx) indexKey iVal); [done|]. intros _.
    simpl. split; [|exists iVal; split; [done|apply store_get_set_eq]]. right.
    exists (mkItem indexKey iVal None). split.
    + unfold Txn_Get. simpl. by rewrite Hget, store_get_set_eq, Hval.
    + unfold Item_Value. simpl. by apply Hcodec.
Qed.

Lemma remove_after_add (v : keyList) (key : bytes) :
  sorted_keys v -> key ∉ v -> remove (add v key) key = v.
Proof.
  intros Hs Hnot. pose proof (add_sorted v key Hs) as Hs'.
  rewrite add_unfold in *. destruct (in_ v key) eqn:Hin.
  - by apply in_elem_of in Hin.
  - rewrite (remove_present _ _ _ Hs'). apply take_drop.
Qed.

(** After a call of [indexUpdate] that returns no error, the index key
    holds the updated key list: when the list with the key added or removed
    is not empty, the store has its encoding under the index key and the
    entry reads back as that list (provided [decode] inverts [encode] on
    it); when it is empty, the store has no entry under the index key. *)
Theorem indexUpdate_reads_back (typeName indexName : string) (index : Index) (tx : Txn)
    (key : bytes) (value : Datum) (delete : bool) (fieldKey : bytes) (l : keyList) :
  index indexName value = (Some fieldKey, None) ->
  let indexKey := indexKeyPrefix typeName indexName ++ fieldKey in
  fetched tx indexKey l ->
  let l' := if delete then remove l key else add l key in
  (forall iVal, encode l' = inr iVal -> decode iVal = inr l') ->
  getErr tx indexKey = None -> valueErr tx indexKey = None ->
  snd (indexUpdate typeName indexName index tx key value delete) = None ->
  let tx' := fst (indexUpdate typeName indexName index tx key value delete) in
  fetched tx' indexKey l' /\
  match l' with
  | [] => store_get (kv tx') indexKey = None
  | _ :: _ => exists iVal, encode l' = inr iVal /\ store_get (kv tx') indexKey = Some iVal
  end.
Proof.
  intros Hindex indexKey Hfetched l' Hcodec Hget Hval.
  rewrite (indexUpdate_fetched _ _ _ _ _ _ _ _ _ Hindex Hfetched).
  fold indexKey l'. destruct l' as [|k0 l0] eqn:Hl'.
  - unfold Txn_Delete. destruct (deleteErr tx (writes tx) indexKey); [done|]. intros _.
    simpl. split; [|apply store_get_delete]. left.
    split; [|done]. unfold Txn_Get. simpl. by rewrite Hget, store_get_delete.
  - destruct (encode (k0 :: l0)) as [e|iVal] eqn:Henc; [done|].
    unfold Txn_Set. destruct (setErr tx (writes tx) indexKey iVal); [done|]. intros _.
    simpl. split; [|exists iVal; split; [done|apply store_get_set_eq]]. right.
    exists (mkItem indexKey iVal None). split.
    + unfold Txn_Get. simpl. by rewrite Hget, store_get_set_eq, Hval.
    + unfold Item_Value. simpl. by apply Hcodec.
Qed.

(** Indexing a record and then removing it from the index restores the
    index entry: when the entry's key list is sorted and does not hold the
    record key, [indexUpdate] in add mode followed by [indexUpdate] in delete
    mode, both without error, leaves under the index key the encoding of
    the list it was, an entry that reads back as that list; and when there
    was no entry (the list was empty), it leaves no entry. *)
Theorem indexUpdate_add_then_delete (typeName indexName : string) (index : Index)
    (tx : Txn) (key : bytes) (value : Datum) (fieldKey : bytes) (l : keyList) :
  index indexName value = (Some fieldKey, None) ->
  let indexKey := indexKeyPrefix typeName indexName ++ fieldKey in
  fetched tx indexKey l -> sorted_keys l -> key ∉ l ->
  (forall iVal, encode (add l key) = inr iVal -> decode iVal = inr (add l key)) ->
  (forall iVal, encode l = inr iVal -> decode iVal = inr l) ->
  getErr tx indexKey = None -> valueErr tx indexKey = None ->
  let r1 := indexUpdate typeName indexName index tx key value false in
  let r2 := indexUpdate typeName indexName index (fst r1) key value true in
  snd r1 = None -> snd r2 = None ->
  fetched (fst r2) indexKey l /\
  match l with
  | [] => store_get (kv (fst r2)) indexKey = None
  | _ :: _ => exists iVal, encode l = inr iVal /\ store_get (kv (fst r2)) indexKey = Some iVal
  end.
Proof.
  intros Hindex indexKey Hfetched Hs Hnot Hc1 Hc2 Hget Hval r1 r2 H1 H2.
  destruct (indexUpdate_entry typeName indexName index tx key value false
              fieldKey l Hindex Hfetched Hc1 Hget Hval H1) as [Hf1 _].
  fold indexKey r1 in Hf1. simpl in Hf1.
  destruct (indexUpdate_faults typeName indexName index tx key value false)
    as (Eg & Ev & _). fold r1 in Eg, Ev.
  pose proof (indexUpdate_entry typeName indexName index (fst r1) key value true
                fieldKey (add l key) Hindex Hf1) as Hf2.
  simpl in Hf2. rewrite (remove_after_add l key Hs Hnot) in Hf2.
  apply Hf2; [done|by rewrite Eg|by rewrite Ev|done].
Qed.

(** Indexing the same record twice changes no entry the second time: when
    the entry's key list is sorted and both calls of [indexUpdate] in add
    mode return no error (the second write may fail where the first did
    not: the store counts the writes pending), the entries of the store
    after the second call are the entries after the first, and the index
    entry still reads back as the list with the key added. *)
Theorem indexUpdate_add_twice (typeName indexName : string) (index : Index)
    (tx : Txn) (key : bytes) (value : Datum) (fieldKey : bytes) (l : keyList) :
  index indexName value = (Some fieldKey, None) ->
  let indexKey := indexKeyPrefix typeName indexName ++ fieldKey in
  fetched tx indexKey l -> sorted_keys l ->
  (forall iVal, encode (add l key) = inr iVal -> decode iVal = inr (add l key)) ->
  getErr tx indexKey = None -> valueErr tx indexKey = None ->
  let r1 := indexUpdate typeName indexName index tx key value false in
  let r2 := indexUpdate typeName indexName index (fst r1) key value false in
  snd r1 = None -> snd r2 = None ->
  kv (fst r2) = kv (fst r1) /\
  fetched (fst r2) indexKey (add l key).
Proof.
  intros Hindex indexKey Hfetched Hs Hc Hget Hval r1 r2 H1 H2.
  destruct (indexUpdate_entry typeName indexName index tx key value false
              fieldKey l Hindex Hfetched Hc Hget Hval H1) as [Hf1 Hstored].
  fold indexKey r1 in Hf1, Hstored. simpl in Hf1, Hstored.
  destruct (indexUpdate_faults typeName indexName index tx key value false)
    as (Eg & Ev & _). fold r1 in Eg, Ev.
  assert (add (add l key) key = add l key) as Hidem.
  { apply add_present; [by apply add_sorted|]. apply add_elem_of. by left. }
  split.
  - subst r2. rewrite (indexUpdate_fetched _ _ _ _ _ _ _ _ _ Hindex Hf1) in H2 |- *.
    fold indexKey in H2 |- *. rewrite Hidem in H2 |- *. clear Hf1 Eg Ev.
    subst r1. rewrite (indexUpdate_fetched _ _ _ _ _ _ _ _ _ Hindex Hfetched) in H1, H2 |- *.
    fold indexKey in H1, H2 |- *.
    destruct (add l key) as [|k0 l0] eqn:Hadd; [by apply add_nonempty in Hadd|].
    destruct (encode (k0 :: l0)) as [e|iVal]; [done|].
    unfold Txn_Set in *.
    destruct (setErr tx (writes tx) indexKey iVal); [done|]. simpl in *.
    destruct (setErr tx _ indexKey iVal); [done|]. simpl.
    apply store_set_idem.
  - pose proof (indexUpdate_entry typeName indexName index (fst r1) key value false
                  fieldKey (add l key) Hindex Hf1) as Hf2.
    simpl in Hf2. rewrite Hidem in Hf2.
    apply Hf2; [done|by rewrite Eg|by rewrite Ev|done].
Qed.

(** Removing a record whose field value has no index entry: [indexUpdate]
    in delete mode deletes the missing key, which leaves the entries of the
    store as they are. *)
Theorem indexUpdate_delete_missing (typeName indexName : string) (index : Index)
    (tx : Txn) (key : bytes) (value : Datum) (fieldKey : bytes) :
  index indexName value = (Some fieldKey, None) ->
  let indexKey := indexKeyPrefix typeName indexName ++ fieldKey in
  getErr tx indexKey = None -> store_get (kv tx) indexKey = None ->
  indexUpdate typeName indexName index tx key value true = Txn_Delete tx indexKey /\
  kv (fst (indexUpdate typeName indexName index tx key value true)) = kv tx.
Proof.
  intros Hindex indexKey Hget Hnone.
  assert (fetched tx indexKey []) as Hfetched.
  { left. split; [|done]. unfold Txn_Get. by rewrite Hget, Hnone. }
  rewrite (indexUpdate_fetched _ _ _ _ _ _ _ _ _ Hindex Hfetched). fold indexKey.
  change (remove [] key) with (@nil bytes). split; [done|].
  unfold Txn_Delete. destruct (deleteErr tx (writes tx) indexKey); [done|]. simpl.
  by apply store_delete_absent.
Qed.

End MaintenanceEffects.

Section SampleMaintenanceEffects.
#[local] Existing Instance Sample.host.

(** Indexing a new record [k9: a] leaves the entry of [b] in the same index
    as it is. *)
Lemma indexUpdate_frame_witness :
  let tx := Sample.sound_tx Sample.shop in
  store_get
    (kv (fst (indexUpdate "T" "f" Sample.by_value tx (Sample.bs "bh_T:k9")
                (Sample.bs "a") false)))
    (indexKeyPrefix "T" "f" ++ Sample.bs "b")
  = store_get (kv tx) (indexKeyPrefix "T" "f" ++ Sample.bs "b").
Proof.
  intros tx.
  apply (proj1 (indexUpdate_frame "T" "f" Sample.by_value tx (Sample.bs "bh_T:k9")
                  (Sample.bs "a") false)).
  intros fieldKey E. vm_compute in E. injection E as <-.
  intros H. vm_compute in H. discriminate H.
Defined.

(** Index maintenance for type [T] leaves an index entry of type [U] alone. *)
Lemma index_loops_frame_witness :
  let tx := Sample.sound_tx [(indexKeyPrefix "U" "f" ++ Sample.bs "a", Sample.bs "bh_U:k1" ++ [x00])] in
  let storer := mkStorer "T" [("f", Sample.by_value)] in
  store_get (kv (fst (indexAdd storer tx (Sample.bs "bh_T:k1") (Sample.bs "a"))))
    (indexKeyPrefix "U" "f" ++ Sample.bs "a")
  = store_get (kv tx) (indexKeyPrefix "U" "f" ++ Sample.bs "a").
Proof.
  intros tx storer.
  apply (proj1 (index_loops_frame storer tx (Sample.bs "bh_T:k1") (Sample.bs "a")
                  (indexKeyPrefix "U" "f" ++ Sample.bs "a") eq_refl)).
Defined.

Lemma shop_fetched_a :
  fetched (Sample.sound_tx Sample.shop) (indexKeyPrefix "T" "f" ++ Sample.bs "a")
    [Sample.bs "bh_T:k1"; Sample.bs "bh_T:k3"].
Proof. right. eexists. split; vm_compute; reflexivity. Qed.

(** Indexing the record [k2: a] in the sample store: the entry of [a] reads
    back with [k2] between [k1] and [k3]. *)
Lemma indexUpdate_reads_back_witness :
  let tx := Sample.sound_tx Sample.shop in
  let tx' := fst (indexUpdate "T" "f" Sample.by_value tx (Sample.bs "bh_T:k2")
                    (Sample.bs "a") false) in
  let l' := [Sample.bs "bh_T:k1"; Sample.bs "bh_T:k2"; Sample.bs "bh_T:k3"] in
  fetched tx' (indexKeyPrefix "T" "f" ++ Sample.bs "a") l' /\
  exists iVal, encode l' = inr iVal /\
               store_get (kv tx') (indexKeyPrefix "T" "f" ++ Sample.bs "a") = Some iVal.
Proof.
  intros tx tx' l'.
  apply (indexUpdate_reads_back "T" "f" Sample.by_value tx (Sample.bs "bh_T:k2")
           (Sample.bs "a") false (Sample.bs "a")
           [Sample.bs "bh_T:k1"; Sample.bs "bh_T:k3"] eq_refl shop_fetched_a).
  - intros iVal E. vm_compute in E. injection E as <-. vm_compute. reflexivity.
  - reflexivity.
  - reflexivity.
  - vm_compute. reflexivity.
Defined.

(** Indexing [k2: a] and removing it again: the entry of [a] reads back as
    before. *)
Lemma indexUpdate_add_then_delete_witness :
  let tx := Sample.sound_tx Sample.shop in
  let r1 := indexUpdate "T" "f" Sample.by_value tx (Sample.bs "bh_T:k2") (Sample.bs "a")
              false in
  let r2 := indexUpdate "T" "f" Sample.by_value (fst r1) (Sample.bs "bh_T:k2")
              (Sample.bs "a") true in
  let l := [Sample.bs "bh_T:k1"; Sample.bs "bh_T:k3"] in
  fetched (fst r2) (indexKeyPrefix "T" "f" ++ Sample.bs "a") l /\
  exists iVal, encode l = inr iVal /\
               store_get (kv (fst r2)) (indexKeyPrefix "T" "f" ++ Sample.bs "a") = Some iVal.
Proof.
  intros tx r1 r2.
  apply (indexUpdate_add_then_delete "T" "f" Sample.by_value tx (Sample.bs "bh_T:k2")
           (Sample.bs "a") (Sample.bs "a")
           [Sample.bs "bh_T:k1"; Sample.bs "bh_T:k3"] eq_refl shop_fetched_a).
  - unfold sorted_keys. repeat constructor.
  - intros H. repeat (apply elem_of_cons in H as [H|H]; [discriminate H|]).
    by apply elem_of_nil in H.
  - intros iVal E. vm_compute in E. injection E as <-. vm_compute. reflexivity.
  - intros iVal E. vm_compute in E. injection E as <-. vm_compute. reflexivity.
  - reflexivity.
  - reflexivity.
  - vm_compute. reflexivity.
  - vm_compute. reflexivity.
Defined.

(** Indexing [k2: a] twice. *)
Lemma indexUpdate_add_twice_witness :
  let tx := Sample.sound_tx Sample.shop in
  let r1 := indexUpdate "T" "f" Sample.by_value tx (Sample.bs "bh_T:k2") (Sample.bs "a")
              false in
  let r2 := indexUpdate "T" "f" Sample.by_value (fst r1) (Sample.bs "bh_T:k2")
              (Sample.bs "a") false in
  kv (fst r2) = kv (fst r1) /\
  fetched (fst r2) (indexKeyPrefix "T" "f" ++ Sample.bs "a")
    [Sample.bs "bh_T:k1"; Sample.bs "bh_T:k2"; Sample.bs "bh_T:k3"].
Proof.
  intros tx r1 r2.
  apply (indexUpdate_add_twice "T" "f" Sample.by_value tx (Sample.bs "bh_T:k2")
           (Sample.bs "a") (Sample.bs "a")
           [Sample.bs "bh_T:k1"; Sample.bs "bh_T:k3"] eq_refl shop_fetched_a).
  - unfold sorted_keys. repeat constructor.
  - intros iVal E. vm_compute in E. injection E as <-. vm_compute. reflexivity.
  - reflexivity.
  - reflexivity.
  - vm_compute. reflexivity.
  - vm_compute. reflexivity.
Defined.

(** Removing a record [k9: z] whose field value was never indexed. *)
Lemma indexUpdate_delete_missing_witness :
  let tx := Sample.sound_tx Sample.shop in
  kv (fst (indexUpdate "T" "f" Sample.by_value tx (Sample.bs "bh_T:k9") (Sample.bs "z")
             true))
  = Sample.shop.
Proof.
  intros tx.
  apply (proj2 (indexUpdate_delete_missing "T" "f" Sample.by_value tx
                  (Sample.bs "bh_T:k9") (Sample.bs "z") (Sample.bs "z") eq_refl
                  eq_refl eq_refl)).
Defined.

End SampleMaintenanceEffects.

(** ** What the iterator yields *)

Section Scans.
Context `{host : Host}.
Local Open Scope nat_scope.
Local Arguments iteratorKeyMinCacheSize : simpl never.

Lemma indexExists_items (it : Iterator) (typeName indexName : string) :
  Iterator_items (fst (indexExists it typeName indexName)) = Iterator_items it.
Proof.
  unfold indexExists.
  repeat match goal with
         | |- context [if ?x then _ else _] => destruct x; simpl
         end; reflexivity.
Qed.

Lemma indexExists_keyAt (it : Iterator) (typeName indexName : string) :
  Iterator_keyAt (fst (indexExists it typeName indexName)) = Iterator_keyAt it.
Proof.
  unfold indexExists.
  repeat match goal with
         | |- context [if ?x then _ else _] => destruct x; simpl
         end; reflexivity.
Qed.

Lemma newIterator_keyAt (txn : Txn) (typeName : string) (query : Query) :
  Iterator_keyAt (iter (fst (newIterator txn typeName query))) = keyAt txn.
Proof.
  unfold newIterator.
  destruct (negb (String.eqb (Query_index query) "")).
  - pose proof (indexExists_keyAt (Txn_NewIterator txn) typeName (Query_index query))
      as Hk.
    destruct (indexExists _ _ _) as [it' ex]. simpl in Hk. simpl.
    repeat match goal with
           | |- context [if ?x then _ else _] => destruct x; simpl
           end; by rewrite ?Hk.
  - simpl.
    repeat match goal with
           | |- context [if ?x then _ else _] => destruct x; simpl
           end; reflexivity.
Qed.

Lemma newIterator_fresh_shape (txn : Txn) (typeName : string) (query : Query) :
  let i := fst (newIterator txn typeName query) in
  let criteria := default [] (Query_fieldCriteria query !! Query_index query) in
  exists produce,
    nextKeys i = Some produce /\
    keyCache i = [] /\ Error i = None /\ tx i = txn /\
    Iterator_items (iter i) = Iterator_items (Txn_NewIterator txn) /\
    Iterator_pos (iter i) =
      seek_from (Iterator_items (Txn_NewIterator txn)) (producer_prefix produce) /\
    produce =
      match strategy_of produce with
      | PrimaryKeyScan =>
          keyFieldKeys (typePrefix typeName) criteria typeName (Query_dataType query)
      | FullTypeScan => typeKeys (typePrefix typeName)
      | IndexedLookup => indexKeys (indexKeyPrefix typeName (Query_index query)) criteria
      end.
Proof.
  intros i criteria. subst i criteria. unfold newIterator.
  destruct (negb (String.eqb (Query_index query) "")).
  - pose proof (indexExists_items (Txn_NewIterator txn) typeName (Query_index query))
      as Hitems.
    destruct (indexExists _ _ _) as [it' ex]. simpl in Hitems. simpl.
    repeat match goal with
           | |- context [if ?x then _ else _] => destruct x; simpl
           end; eexists; split_and!; try reflexivity; simpl; by rewrite ?Hitems.
  - simpl.
    repeat match goal with
           | |- context [if ?x then _ else _] => destruct x; simpl
           end; eexists; split_and!; reflexivity.
Qed.

(** [newIterator] returns a fresh iterator: the cache is empty, no error is
    recorded, the transaction is the one given, a closure is stored (so the
    [nil] test of [Next] never fires), and the store iterator stands where
    [Seek] of the closure's prefix puts it: the type prefix for the two
    scans, the prefix of the designated index for the indexed lookup.  The
    closure captures the criteria of the designated field. *)
Theorem newIterator_fresh (txn : Txn) (typeName : string) (query : Query) :
  let i := fst (newIterator txn typeName query) in
  let criteria := default [] (Query_fieldCriteria query !! Query_index query) in
  exists produce,
    nextKeys i = Some produce /\
    keyCache i = [] /\ Error i = None /\ tx i = txn /\
    Iterator_items (iter i) = Iterator_items (Txn_NewIterator txn) /\
    Iterator_pos (iter i) =
      seek_from (Iterator_items (Txn_NewIterator txn)) (producer_prefix produce) /\
    produce =
      match strategy_of produce with
      | PrimaryKeyScan =>
          keyFieldKeys (typePrefix typeName) criteria typeName (Query_dataType query)
      | FullTypeScan => typeKeys (typePrefix typeName)
      | IndexedLookup => indexKeys (indexKeyPrefix typeName (Query_index query)) criteria
      end.
Proof.
  intros i criteria. subst i criteria. unfold newIterator.
  destruct (negb (String.eqb (Query_index query) "")).
  - pose proof (indexExists_items (Txn_NewIterator txn) typeName (Query_index query))
      as Hitems.
    destruct (indexExists _ _ _) as [it' ex]. simpl in Hitems. simpl.
    repeat match goal with
           | |- context [if ?x then _ else _] => destruct x; simpl
           end; eexists; split_and!; try reflexivity; simpl; by rewrite ?Hitems.
  - simpl.
    repeat match goal with
           | |- context [if ?x then _ else _] => destruct x; simpl
           end; eexists; split_and!; reflexivity.
Qed.

Lemma Txn_Get_inr (txn : Txn) (k : bytes) (item : Item) :
  Txn_Get txn k = inr item ->
  store_get (kv txn) k = Some (Item_val item) /\ Item_Key item = k /\
  Item_valErr item = valueErr txn k.
Proof.
  unfold Txn_Get. destruct (getErr txn k); [done|].
  destruct (store_get (kv txn) k); [|done]. by intros [= <-].
Qed.

Lemma Item_Value_id (item : Item) (value : bytes) :
  Item_Value item (fun val => inr val) = inr value -> value = Item_val item.
Proof. unfold Item_Value. destruct (Item_valErr item); [done|]. by intros [= <-]. Qed.

Lemma call_items (produce : producer) (it : Iterator) :
  Iterator_items (fst (call produce it)) = Iterator_items it.
Proof.
  unfold call, read_slices. by destruct produce;
    repeat match goal with |- context [let '(_, _) := ?x in _] => destruct x end.
Qed.

Lemma read_kept (it : Iterator) (origin : list Item) (slices : list KeySlice) :
  keys_kept (Iterator_keyAt it) origin ->
  Forall (fun slice => slice `suffix_of` origin /\ Iterator_pos it `suffix_of` slice)
    slices ->
  map (Iterator_read it) slices = map slice_key slices.
Proof.
  intros Hkept Hall. induction Hall as [|slice slices [Hs Hnow] _ IH]; [done|].
  simpl. rewrite IH. f_equal. by apply Hkept.
Qed.

Lemma keys_kept_suffix (keyAt : KeySlice -> list Item -> bytes) (pos pos' : list Item) :
  pos' `suffix_of` pos -> keys_kept keyAt pos -> keys_kept keyAt pos'.
Proof. intros Hsuf Hkept slice now Hs Hn. apply Hkept; [by etrans|done]. Qed.

(** The key slices a loop returns were taken between the position the scan
    started from and the position the loop stops at. *)
Lemma typeKeys_loop_slices (prefix : bytes) (origin pos : list Item)
    (nKeys : list KeySlice) (pos' : list Item) (keys : list KeySlice) :
  pos `suffix_of` origin ->
  Forall (fun slice => slice `suffix_of` origin /\ pos `suffix_of` slice) nKeys ->
  typeKeys_loop prefix pos nKeys = (pos', inr keys) ->
  pos' `suffix_of` pos /\
  Forall (fun slice => slice `suffix_of` origin /\ pos' `suffix_of` slice) keys.
Proof.
  revert nKeys; induction pos as [|item pos IH]; intros nKeys Hpos Hall;
    cbn [typeKeys_loop]; destruct (length nKeys <? iteratorKeyMinCacheSize);
    try (by intros [= <- <-]).
  destruct (negb (HasPrefix (Item_Key item) prefix)); [by intros [= <- <-]|].
  intros E. apply IH in E as [Hsuf Hkeys].
  - split; [by apply suffix_cons_r|done].
  - by apply suffix_cons_l in Hpos.
  - apply Forall_app. split.
    + eapply Forall_impl; [exact Hall|]. intros slice [Hs Hn]. split; [done|].
      by apply suffix_cons_l in Hn.
    + constructor; [|done]. split; [done|]. by apply suffix_cons_r.
Qed.

Lemma keyFieldKeys_loop_slices (prefix : bytes) (criteria : list Criterion)
    (typeName : string) (dataType : DataType) (origin pos : list Item)
    (nKeys : list KeySlice) (pos' : list Item) (keys : list KeySlice) :
  pos `suffix_of` origin ->
  Forall (fun slice => slice `suffix_of` origin /\ pos `suffix_of` slice) nKeys ->
  keyFieldKeys_loop prefix criteria typeName dataType pos nKeys = (pos', inr keys) ->
  pos' `suffix_of` pos /\
  Forall (fun slice => slice `suffix_of` origin /\ pos' `suffix_of` slice) keys.
Proof.
  revert nKeys; induction pos as [|item pos IH]; intros nKeys Hpos Hall;
    cbn [keyFieldKeys_loop]; destruct (length nKeys <? iteratorKeyMinCacheSize);
    try (by intros [= <- <-]).
  destruct (negb (HasPrefix (Item_Key item) prefix)); [by intros [= <- <-]|].
  destruct (Item_Value item (decodeValue dataType)) as [e|val]; [done|].
  destruct (matchesAllCriteria criteria (Item_Key item) true typeName (Some val))
    as [e|ok]; [done|].
  assert (Forall (fun slice => slice `suffix_of` origin /\ pos `suffix_of` slice) nKeys)
    as Hall'.
  { eapply Forall_impl; [exact Hall|]. intros slice [Hs Hn]. split; [done|].
    by apply suffix_cons_l in Hn. }
  intros E. apply IH in E as [Hsuf Hkeys].
  - split; [by apply suffix_cons_r|done].
  - by apply suffix_cons_l in Hpos.
  - destruct ok; [|done]. apply Forall_app. split; [done|].
    constructor; [|done]. split; [done|]. by apply suffix_cons_r.
Qed.

(** [Next] returns a key and its value together or neither; a pair it
    returns is an entry of the transaction (the value is the one stored
    under the key) and comes with no error recorded; and [Next] never
    changes the transaction, the stored closure or the entries the store
    iterator ranges over. *)
Theorem Next_sound (i : iterator) :
  tx (fst (Next i)) = tx i /\
  nextKeys (fst (Next i)) = nextKeys i /\
  Iterator_items (iter (fst (Next i))) = Iterator_items (iter i) /\
  (snd (Next i) = (None, None) \/
   exists k v, snd (Next i) = (Some k, Some v) /\
               store_get (kv (tx i)) k = Some v /\
               Error (fst (Next i)) = None).
Proof.
  unfold Error, Next. destruct (err i) eqn:Herr; [by auto|].
  destruct (nextKeys i) as [produce|] eqn:Hnext; [|by auto].
  pose proof (call_items produce (iter i)) as Hitems.
  destruct (keyCache i) as [|key keyCache'] eqn:Hcache; simpl;
    [destruct (call produce (iter i)) as [iter' [e|newKeys]]; simpl in *; [by auto|];
     destruct newKeys as [|key newKeys]; simpl; [by auto|]
    |rewrite Hcache];
    (destruct (Txn_Get (tx i) key) as [e|item] eqn:Hget; simpl; [by auto|];
     destruct (Item_Value item _) as [e|value] eqn:Hval; simpl; [by auto|];
     split_and!; try done; right; exists key, value;
     apply Txn_Get_inr in Hget as (Hget & _ & _); apply Item_Value_id in Hval as ->;
     done).
Qed.

(** The contract of the three loops: without error on the items under the
    prefix, a loop returns the keys it was given followed by the first keys
    still pending, leaves the rest pending, and stops short of the batch
    size only when nothing is pending. *)
Lemma typeKeys_loop_pending (prefix : bytes) (pos : list Item) (nKeys : list KeySlice) :
  let produce := typeKeys prefix in
  Forall (readable produce) (prefix_run pos prefix) ->
  exists pos' keys,
    typeKeys_loop prefix pos nKeys = (pos', inr keys) /\
    map slice_key keys ++ pending produce pos'
      = map slice_key nKeys ++ pending produce pos /\
    Forall (readable produce) (prefix_run pos' prefix) /\
    (length keys < iteratorKeyMinCacheSize -> pending produce pos' = []).
Proof.
  intros produce. revert nKeys; induction pos as [|item pos IH]; intros nKeys Hok;
    cbn [typeKeys_loop];
    destruct (Nat.ltb_spec (length nKeys) iteratorKeyMinCacheSize) as [Hlt|Hge];
    try (eexists _, _; split; [reflexivity|]; split; [done|]; split; [done|];
         try done; lia).
  cbn [prefix_run] in Hok.
  destruct (HasPrefix (Item_Key item) prefix) eqn:Hp; cbn [negb].
  - apply Forall_cons in Hok as [_ Hok].
    destruct (IH (nKeys ++ [item :: pos]) Hok) as (pos' & keys & -> & Hk & Hok' & Hshort).
    eexists _, _. split; [reflexivity|]. split; [|done].
    rewrite Hk, map_app, <- app_assoc. f_equal. simpl. by rewrite Hp.
  - eexists _, _. split; [reflexivity|]. split; [done|].
    split; [simpl; by rewrite Hp|]. intros _. simpl. by rewrite Hp.
Qed.

Lemma keyFieldKeys_loop_pending (prefix : bytes) (criteria : list Criterion)
    (typeName : string) (dataType : DataType) (pos : list Item) (nKeys : list KeySlice) :
  let produce := keyFieldKeys prefix criteria typeName dataType in
  Forall (readable produce) (prefix_run pos prefix) ->
  exists pos' keys,
    keyFieldKeys_loop prefix criteria typeName dataType pos nKeys = (pos', inr keys) /\
    map slice_key keys ++ pending produce pos'
      = map slice_key nKeys ++ pending produce pos /\
    Forall (readable produce) (prefix_run pos' prefix) /\
    (length keys < iteratorKeyMinCacheSize -> pending produce pos' = []).
Proof.
  intros produce. revert nKeys; induction pos as [|item pos IH]; intros nKeys Hok;
    cbn [keyFieldKeys_loop];
    destruct (Nat.ltb_spec (length nKeys) iteratorKeyMinCacheSize) as [Hlt|Hge];
    try (eexists _, _; split; [reflexivity|]; split; [done|]; split; [done|];
         try done; lia).
  cbn [prefix_run] in Hok.
  destruct (HasPrefix (Item_Key item) prefix) eqn:Hp; cbn [negb].
  - apply Forall_cons in Hok as [[Hval (val & ok & Hdec & Hmatch)] Hok].
    unfold Item_Value. rewrite Hval, Hdec, Hmatch.
    destruct (IH (if ok then nKeys ++ [item :: pos] else nKeys) Hok)
      as (pos' & keys & -> & Hk & Hok' & Hshort).
    eexists _, _. split; [reflexivity|]. split; [|done].
    rewrite Hk. unfold produce, pending. cbn [prefix_run]. rewrite Hp.
    cbn [List.filter]. unfold record_matches at 2, item_entry at 2. simpl.
    rewrite Hdec, Hmatch. destruct ok; [by rewrite map_app, <- app_assoc|done].
  - eexists _, _. split; [reflexivity|]. split; [done|].
    split; [simpl; by rewrite Hp|]. intros _. simpl. by rewrite Hp.
Qed.

Lemma indexKeys_loop_pending (prefix : bytes) (criteria : list Criterion)
    (pos : list Item) (nKeys : list bytes) :
  let produce := indexKeys prefix criteria in
  Forall (readable produce) (prefix_run pos prefix) ->
  exists pos' keys,
    indexKeys_loop prefix criteria pos nKeys = (pos', inr keys) /\
    keys ++ pending produce pos' = nKeys ++ pending produce pos /\
    Forall (readable produce) (prefix_run pos' prefix) /\
    (length keys < iteratorKeyMinCacheSize -> pending produce pos' = []).
Proof.
  intros produce. revert nKeys; induction pos as [|item pos IH]; intros nKeys Hok;
    cbn [indexKeys_loop];
    destruct (Nat.ltb_spec (length nKeys) iteratorKeyMinCacheSize) as [Hlt|Hge];
    try (eexists _, _; split; [reflexivity|]; split; [done|]; split; [done|];
         try done; lia).
  cbn [prefix_run] in Hok.
  destruct (HasPrefix (Item_Key item) prefix) eqn:Hp; cbn [negb].
  - apply Forall_cons in Hok as [[Hval (ok & Hmatch)] Hok].
    rewrite Hmatch. unfold Item_Value. rewrite Hval.
    match goal with
    | |- context [indexKeys_loop prefix criteria pos ?n] =>
        destruct (IH n Hok) as (pos' & keys & -> & Hk & Hok' & Hshort)
    end.
    eexists _, _. split; [reflexivity|]. split; [|done].
    rewrite Hk. unfold produce, pending. cbn [prefix_run]. rewrite Hp.
    cbn [map concat]. unfold entry_keys at 2, item_entry at 2. simpl.
    rewrite Hmatch. destruct ok; [|done]. destruct (decode (Item_val item)); [done|].
    by rewrite <- app_assoc.
  - eexists _, _. split; [reflexivity|]. split; [done|].
    split; [simpl; by rewrite Hp|]. intros _. simpl. by rewrite Hp.
Qed.

(** The same for a call of the stored closure.  The two scans return key
    slices of the store iterator, read once the iterator has moved on: for
    them the slices taken from the iterator's position on must keep their
    content. *)
Lemma call_pending (produce : producer) (it : Iterator) :
  (strategy_of produce <> IndexedLookup ->
   keys_kept (Iterator_keyAt it) (Iterator_pos it)) ->
  Forall (readable produce) (prefix_run (Iterator_pos it) (producer_prefix produce)) ->
  exists pos' keys,
    call produce it = (mkIterator (Iterator_items it) pos' (Iterator_keyAt it), inr keys) /\
    keys ++ pending produce pos' = pending produce (Iterator_pos it) /\
    Forall (readable produce) (prefix_run pos' (producer_prefix produce)) /\
    (keys = [] -> pending produce (Iterator_pos it) = []) /\
    (strategy_of produce <> IndexedLookup -> keys_kept (Iterator_keyAt it) pos').
Proof.
  assert (0 < iteratorKeyMinCacheSize) as Hpos by (unfold iteratorKeyMinCacheSize; lia).
  intros Hkept Hok. unfold call, read_slices.
  destruct produce as [prefix criteria typeName dataType|prefix|prefix criteria];
    simpl in Hok |- *.
  - specialize (Hkept ltac:(done)).
    destruct (keyFieldKeys_loop_pending prefix criteria typeName dataType
                (Iterator_pos it) [] Hok) as (pos' & slices & E & Hk & Hok' & Hshort).
    rewrite E.
    apply (keyFieldKeys_loop_slices _ _ _ _ (Iterator_pos it)) in E as [Hsuf Hslices];
      [|done|done].
    eexists pos', _. split; [reflexivity|].
    rewrite (read_kept _ (Iterator_pos it)) by done. split_and!; try done.
    + intros Hnil. apply map_eq_nil in Hnil as ->. simpl in *. rewrite <- Hk.
      by apply Hshort.
    + intros _. by apply (keys_kept_suffix _ (Iterator_pos it)).
  - specialize (Hkept ltac:(done)).
    destruct (typeKeys_loop_pending prefix (Iterator_pos it) [] Hok)
      as (pos' & slices & E & Hk & Hok' & Hshort).
    rewrite E.
    apply (typeKeys_loop_slices _ (Iterator_pos it)) in E as [Hsuf Hslices];
      [|done|done].
    eexists pos', _. split; [reflexivity|].
    rewrite (read_kept _ (Iterator_pos it)) by done. split_and!; try done.
    + intros Hnil. apply map_eq_nil in Hnil as ->. simpl in *. rewrite <- Hk.
      by apply Hshort.
    + intros _. by apply (keys_kept_suffix _ (Iterator_pos it)).
  - destruct (indexKeys_loop_pending prefix criteria (Iterator_pos it) [] Hok)
      as (pos' & keys & -> & Hk & Hok' & Hshort).
    exists pos', keys. split_and!; try done.
    intros ->. simpl in *. rewrite <- Hk. by apply Hshort.
Qed.

(** The two scans hand out key slices, not keys.  A batch of the
    primary-key scan or of the full-type scan is made of the slices
    [item.Key()] of the items under the prefix that the closure has passed
    (for the primary-key scan: of those whose record passes the criteria),
    kept uncopied while [iter.Next()] moves the store iterator on: each key
    of the batch is what its slice reads as when the closure returns, with
    the store iterator at the end of the batch, which is up to the store. *)
Theorem scan_keys_read_at_return (produce : producer) (it : Iterator) :
  strategy_of produce <> IndexedLookup ->
  Forall (readable produce) (prefix_run (Iterator_pos it) (producer_prefix produce)) ->
  let it' := fst (call produce it) in
  exists slices,
    snd (call produce it) = inr (map (Iterator_read it') slices) /\
    map slice_key slices ++ pending produce (Iterator_pos it')
      = pending produce (Iterator_pos it) /\
    Forall (fun slice => slice `suffix_of` Iterator_pos it /\
                         Iterator_pos it' `suffix_of` slice) slices.
Proof.
  intros Hscan Hok. unfold call, read_slices.
  destruct produce as [prefix criteria typeName dataType|prefix|prefix criteria];
    simpl in Hok |- *; [| |done].
  - destruct (keyFieldKeys_loop_pending prefix criteria typeName dataType
                (Iterator_pos it) [] Hok) as (pos' & slices & E & Hk & _).
    rewrite E. simpl.
    apply (keyFieldKeys_loop_slices _ _ _ _ (Iterator_pos it)) in E as [_ Hslices];
      [|done|done].
    by exists slices.
  - destruct (typeKeys_loop_pending prefix (Iterator_pos it) [] Hok)
      as (pos' & slices & E & Hk & _).
    rewrite E. simpl.
    apply (typeKeys_loop_slices _ (Iterator_pos it)) in E as [_ Hslices]; [|done|done].
    by exists slices.
Qed.

(** [Next] in its three successful shapes. *)
Lemma Next_cached (i : iterator) (produce : producer) (k : bytes) (cache : list bytes)
    (v : bytes) :
  Error i = None -> nextKeys i = Some produce -> keyCache i = k :: cache ->
  reads_ok (tx i) -> store_get (kv (tx i)) k = Some v ->
  Next i = (mkiterator cache (Some produce) (iter i) (tx i) None, (Some k, Some v)).
Proof.
  unfold Error, Next, Txn_Get, Item_Value. intros He Hn Hcache [Hg Hv] Hs.
  rewrite He, Hn, Hcache. simpl. rewrite Hcache, Hg, Hs, Hv. simpl.
  by rewrite ?He, ?Hn.
Qed.

Lemma Next_fill (i : iterator) (produce : producer) (it' : Iterator) (k : bytes)
    (keys : list bytes) (v : bytes) :
  Error i = None -> nextKeys i = Some produce -> keyCache i = [] ->
  call produce (iter i) = (it', inr (k :: keys)) ->
  reads_ok (tx i) -> store_get (kv (tx i)) k = Some v ->
  Next i = (mkiterator keys (Some produce) it' (tx i) None, (Some k, Some v)).
Proof.
  unfold Error, Next, Txn_Get, Item_Value. intros He Hn Hcache Hcall [Hg Hv] Hs.
  rewrite He, Hn, Hcache, Hcall. simpl. rewrite Hg, Hs, Hv. simpl.
  by rewrite ?He, ?Hn.
Qed.

Lemma Next_end (i : iterator) (produce : producer) (it' : Iterator) :
  Error i = None -> nextKeys i = Some produce -> keyCache i = [] ->
  call produce (iter i) = (it', inr []) ->
  Next i = (mkiterator [] (Some produce) it' (tx i) None, (None, None)).
Proof.
  unfold Error, Next. intros He Hn Hcache Hcall.
  rewrite He, Hn, Hcache, Hcall. simpl. by rewrite ?Hcache, ?He, ?Hn.
Qed.

(** A closure that returned a short batch stands at the end of its prefix:
    called again, it returns an empty batch and stays where it is. *)
Lemma call_exhausted (produce : producer) (it it' : Iterator) (keys : list bytes) :
  call produce it = (it', inr keys) -> length keys < iteratorKeyMinCacheSize ->
  call produce it' = (it', inr []).
Proof.
  assert (0 < iteratorKeyMinCacheSize) as Hpos by (unfold iteratorKeyMinCacheSize; lia).
  apply Nat.ltb_lt in Hpos.
  unfold call, read_slices. intros Hcall Hshort.
  destruct produce as [prefix criteria typeName dataType|prefix|prefix criteria].
  - destruct (keyFieldKeys_loop _ _ _ _ _ _) as [pos' [e|slices]] eqn:E; [done|].
    injection Hcall as <- <-. rewrite length_map in Hshort.
    apply keyFieldKeys_loop_batch in E as [_ Hv]; [|simpl; lia]. specialize (Hv Hshort).
    simpl. destruct pos' as [|item pos']; cbn [keyFieldKeys_loop length]; rewrite Hpos;
      [done|]. simpl in Hv. by rewrite Hv.
  - destruct (typeKeys_loop _ _ _) as [pos' [e|slices]] eqn:E; [done|].
    injection Hcall as <- <-. rewrite length_map in Hshort.
    apply typeKeys_loop_batch in E as [_ Hv]; [|simpl; lia]. specialize (Hv Hshort).
    simpl. destruct pos' as [|item pos']; cbn [typeKeys_loop length]; rewrite Hpos;
      [done|]. simpl in Hv. by rewrite Hv.
  - destruct (indexKeys_loop _ _ _ _) as [pos' r] eqn:E.
    injection Hcall as <- ->.
    apply (indexKeys_loop_batch _ _ _ _ _ _ _ (decoded_bound (prefix_run (Iterator_pos it) prefix)))
      in E as [_ Hv]; [|simpl; lia].
    specialize (Hv Hshort).
    simpl. destruct pos' as [|item pos']; cbn [indexKeys_loop length]; rewrite Hpos;
      [done|]. simpl in Hv. by rewrite Hv.
Qed.

(** The end of a scan is stable.  When [Next] returns (nil, nil) with no
    error recorded, every later call returns (nil, nil) again, records no
    error and leaves the iterator as it is. *)
Theorem Next_end_stable (i : iterator) (n : nat) :
  Error i = None -> snd (Next i) = (None, None) -> Error (fst (Next i)) = None ->
  Next_times n (fst (Next i)) = fst (Next i) /\
  Next (fst (Next i)) = (fst (Next i), (None, None)).
Proof.
  intros He Hnil He'.
  assert (Next (fst (Next i)) = (fst (Next i), (None, None))) as Hstable.
  { destruct (nextKeys i) as [produce|] eqn:Hn.
    - destruct (Next_nil_without_error i produce He Hn Hnil He') as [Hcache Hcall].
      destruct (call produce (iter i)) as [it' r] eqn:E. simpl in Hcall. subst r.
      rewrite (Next_end i produce it' He Hn Hcache E). simpl.
      apply (Next_end (mkiterator [] (Some produce) it' (tx i) None) produce it'
               eq_refl eq_refl eq_refl).
      simpl. apply (call_exhausted produce (iter i) it' [] E).
      unfold iteratorKeyMinCacheSize. simpl. lia.
    - unfold Next. unfold Error in He. rewrite He, Hn. simpl. by rewrite He, Hn. }
  split; [|done]. unfold Next_times. induction n as [|n IH]; [done|].
  simpl. by rewrite IH, Hstable.
Qed.

(** Draining an iterator, by induction on the number of calls. *)
Lemma drain_pending (fuel : nat) (i : iterator) (produce : producer) :
  Error i = None -> nextKeys i = Some produce ->
  (strategy_of produce <> IndexedLookup ->
   keys_kept (Iterator_keyAt (iter i)) (Iterator_pos (iter i))) ->
  Forall (readable produce)
    (prefix_run (Iterator_pos (iter i)) (producer_prefix produce)) ->
  reads_ok (tx i) ->
  let keys := keyCache i ++ pending produce (Iterator_pos (iter i)) in
  Forall (fun k => is_Some (store_get (kv (tx i)) k)) keys ->
  length keys <= fuel ->
  fst (drain fuel i) = resolve (kv (tx i)) keys /\ Error (snd (drain fuel i)) = None.
Proof.
  revert i. induction fuel as [|fuel IH]; intros i He Hn Hkept Hok Hreads keys Hres Hlen.
  - destruct keys; [done|simpl in Hlen; lia].
  - destruct (call_pending produce (iter i) Hkept Hok)
      as (pos' & keys0 & Hcall & Hk & Hok' & Hempty & Hkept').
    cbn [drain]. subst keys.
    destruct (keyCache i) as [|k cache] eqn:Hcache.
    + destruct keys0 as [|k keys0].
      * rewrite (Next_end i produce _ He Hn Hcache Hcall). simpl.
        by rewrite (Hempty eq_refl).
      * simpl in Hres, Hlen |- *. rewrite <- Hk in Hres, Hlen |- *. simpl in Hres, Hlen |- *.
        apply Forall_cons in Hres as [[v Hv] Hres].
        rewrite (Next_fill i produce _ k keys0 v He Hn Hcache Hcall Hreads Hv).
        match goal with
        | |- context [drain fuel ?j] =>
            destruct (IH j) as [Hd He'']; simpl; try done; [lia|];
            destruct (drain fuel j) as [rest i'']
        end.
        simpl in *. by rewrite Hv, Hd.
    + simpl in Hres, Hlen |- *. apply Forall_cons in Hres as [[v Hv] Hres].
      rewrite (Next_cached i produce k cache v He Hn Hcache Hreads Hv).
      match goal with
      | |- context [drain fuel ?j] =>
          destruct (IH j) as [Hd He'']; simpl; try done; [lia|];
          destruct (drain fuel j) as [rest i'']
      end.
      simpl in *. by rewrite Hv, Hd.
Qed.

(** *** From the iterator's items to the entries of the store *)

Lemma store_get_elem (s : list (bytes * bytes)) (k v : bytes) :
  sorted_store s -> (k, v) ∈ s -> store_get s k = Some v.
Proof.
  unfold sorted_store. induction 1 as [|[k0 v0] s Hs IH Hall]; intros Hin.
  - by apply elem_of_nil in Hin.
  - simpl. apply elem_of_cons in Hin as [[= -> ->]|Hin]; [by rewrite Equal_refl|].
    rewrite Equal_ne; [by apply IH|]. intros ->.
    rewrite Forall_forall in Hall. apply (irreflexivity bytes_lt k), (Hall _ Hin).
Qed.

Lemma resolve_entries (s es : list (bytes * bytes)) :
  sorted_store s -> (forall e, e ∈ es -> e ∈ s) -> resolve s (map fst es) = es.
Proof.
  intros Hs. unfold resolve. induction es as [|[k v] es IH]; intros Hsub; [done|].
  simpl. rewrite (store_get_elem s k v Hs) by (apply Hsub; by left). simpl.
  f_equal. apply IH. intros e He. apply Hsub. by right.
Qed.

Lemma entries_under_elem (s : list (bytes * bytes)) (prefix : bytes) (e : bytes * bytes) :
  e ∈ entries_under s prefix -> e ∈ s.
Proof.
  unfold entries_under. intros H. apply list_elem_of_In, filter_In in H as [H _].
  by apply list_elem_of_In.
Qed.

(** On items in key order that are not below [prefix], the items that start
    with [prefix] come first. *)
Lemma prefix_run_filter (items : list Item) (prefix : bytes) :
  sorted_items items ->
  Forall (fun item => (0 <= Compare (Item_Key item) prefix)%Z) items ->
  prefix_run items prefix
    = List.filter (fun item => HasPrefix (Item_Key item) prefix) items.
Proof.
  unfold sorted_items. induction 1 as [|x items Hs IH Hall]; intros Hge; [done|].
  apply Forall_cons in Hge as [Hx Hge]. simpl.
  destruct (HasPrefix (Item_Key x) prefix) eqn:Hp; [by rewrite IH|].
  symmetry. clear IH. induction items as [|y items IH]; [done|].
  apply Forall_cons in Hall as [Hxy Hall]. apply Forall_cons in Hge as [_ Hge].
  apply StronglySorted_cons in Hs as [_ Hs]. simpl.
  rewrite (HasPrefix_above prefix (Item_Key x) (Item_Key y) Hx Hp Hxy). by apply IH.
Qed.

Lemma seek_from_run (items : list Item) (prefix : bytes) :
  sorted_items items ->
  prefix_run (seek_from items prefix) prefix
    = List.filter (fun item => HasPrefix (Item_Key item) prefix) items.
Proof.
  unfold sorted_items. induction 1 as [|x items Hs IH Hall]; [done|].
  cbn [seek_from]. destruct (Z.ltb_spec (Compare (Item_Key x) prefix) 0) as [Hlt|Hge].
  - rewrite IH. simpl. destruct (HasPrefix (Item_Key x) prefix) eqn:Hp; [|done].
    apply HasPrefix_not_below in Hp. lia.
  - apply prefix_run_filter; [by constructor|]. constructor; [done|].
    eapply Forall_impl; [exact Hall|]. intros y Hy. unfold bytes_lt in Hy.
    destruct (Z_lt_le_dec (Compare (Item_Key y) prefix) 0) as [Hc|]; [|done].
    pose proof (Compare_lt_trans _ _ _ Hy Hc). lia.
Qed.

(** The items under the closure's prefix that a fresh iterator stands at
    are the entries of the store under that prefix. *)
Lemma newIterator_items (txn : Txn) (typeName : string) (query : Query) :
  sorted_store (kv txn) -> reads_ok txn ->
  let i := fst (newIterator txn typeName query) in
  forall produce, nextKeys i = Some produce ->
    prefix_run (Iterator_pos (iter i)) (producer_prefix produce)
      = map (fun e => mkItem (fst e) (snd e) None)
          (entries_under (kv txn) (producer_prefix produce)).
Proof.
  intros Hs [_ Hv] i produce Hn.
  destruct (newIterator_fresh_shape txn typeName query)
    as (produce' & Hn' & _ & _ & _ & _ & Hpos & _).
  fold i in Hn', Hpos. rewrite Hn in Hn'. injection Hn' as <-.
  rewrite Hpos, seek_from_run by by apply Txn_NewIterator_sorted.
  unfold entries_under. simpl. clear -Hv. induction (kv txn) as [|e s IH]; [done|].
  simpl. rewrite Hv. destruct (HasPrefix e.1 (producer_prefix produce)); simpl;
    by rewrite IH.
Qed.

Lemma map_item_key (es : list (bytes * bytes)) :
  map Item_Key (map (fun e => mkItem (fst e) (snd e) None) es) = map fst es.
Proof. induction es as [|e es IH]; simpl; by rewrite ?IH. Qed.

Lemma Forall_readable_items (produce : producer) (es : list (bytes * bytes)) :
  (forall e, e ∈ es -> readable produce (mkItem (fst e) (snd e) None)) ->
  Forall (readable produce) (map (fun e => mkItem (fst e) (snd e) None) es).
Proof.
  intros H. apply Forall_forall. intros item Hin.
  apply list_elem_of_In, in_map_iff in Hin as (e & <- & He). by apply H, list_elem_of_In.
Qed.

(** The full-type scan, drained.  Over a store in key order whose reads do
    not fail and whose iterator keeps the content of the key slices it hands
    out from the first record of the type on (the closure keeps
    [iter.Item().Key()] uncopied across [iter.Next()]), the iterator that
    [newIterator] builds with the full-type scan yields every entry under
    the type prefix, each key with its stored value, in key order and
    unfiltered, and ends with no error. *)
Theorem full_scan_yields (txn : Txn) (typeName : string) (query : Query) (fuel : nat) :
  sorted_store (kv txn) -> reads_ok txn ->
  keys_kept (keyAt txn)
    (seek_from (Iterator_items (Txn_NewIterator txn)) (typePrefix typeName)) ->
  let i := fst (newIterator txn typeName query) in
  strategy_of <$> nextKeys i = Some FullTypeScan ->
  let records := entries_under (kv txn) (typePrefix typeName) in
  length records <= fuel ->
  fst (drain fuel i) = records /\ Error (snd (drain fuel i)) = None.
Proof.
  intros Hs Hreads Hkept i Hstrat records Hfuel.
  destruct (newIterator_fresh_shape txn typeName query)
    as (produce & Hn & Hcache & He & Htx & _ & Hpos & Hp).
  fold i in Hn, Hcache, He, Htx, Hpos. rewrite Hn in Hstrat. injection Hstrat as Hstrat.
  rewrite Hstrat in Hp.
  pose proof (newIterator_items txn typeName query Hs Hreads produce Hn) as Hrun.
  fold i in Hrun.
  pose proof (newIterator_keyAt txn typeName query) as HkeyAt. fold i in HkeyAt.
  rewrite <- HkeyAt in Hkept.
  assert (keys_kept (Iterator_keyAt (iter i)) (Iterator_pos (iter i))) as Hkept'
    by (rewrite Hpos, Hp; exact Hkept).
  pose proof (drain_pending fuel i produce He Hn (fun _ => Hkept')) as Hd.
  subst produce. simpl in Hrun, Hd. rewrite Htx, Hcache, !Hrun in Hd. simpl in Hd.
  fold records in Hd. rewrite map_item_key in Hd.
  rewrite (resolve_entries _ records Hs) in Hd by apply entries_under_elem.
  apply Hd; [| done | | by rewrite length_map].
  - apply Forall_readable_items. intros e _. by split.
  - apply Forall_forall. intros k Hk. apply list_elem_of_In, in_map_iff in Hk
      as ([k' v] & <- & Hin). exists v. apply store_get_elem; [done|].
    apply (entries_under_elem _ (typePrefix typeName)). by apply list_elem_of_In.
Qed.

Lemma map_filter_items (f : bytes * bytes -> bool) (es : list (bytes * bytes)) :
  map Item_Key
    (List.filter (fun item => f (item_entry item))
       (map (fun e => mkItem (fst e) (snd e) None) es))
  = map fst (List.filter f es).
Proof.
  induction es as [|[k v] es IH]; [done|]. simpl. unfold item_entry at 1. simpl.
  destruct (f (k, v)); simpl; by rewrite IH.
Qed.

Lemma map_entry_items {A : Type} (f : bytes * bytes -> A) (es : list (bytes * bytes)) :
  map (fun item => f (item_entry item)) (map (fun e => mkItem (fst e) (snd e) None) es)
  = map f es.
Proof. induction es as [|[k v] es IH]; [done|]. simpl. by rewrite IH. Qed.

(** The primary-key scan, drained.  Over a store in key order whose reads
    do not fail and whose iterator keeps the content of the key slices it
    hands out from the first record of the type on (the closure keeps
    [item.Key()] uncopied across [iter.Next()]), and when every record under
    the type prefix decodes and gets a verdict from the criteria, the
    iterator that [newIterator] builds with the primary-key scan yields
    exactly the records under the type prefix that pass the criteria of the
    designated field, each key with its stored value, in key order, and ends
    with no error. *)
Theorem key_scan_yields (txn : Txn) (typeName : string) (query : Query) (fuel : nat) :
  sorted_store (kv txn) -> reads_ok txn ->
  keys_kept (keyAt txn)
    (seek_from (Iterator_items (Txn_NewIterator txn)) (typePrefix typeName)) ->
  let i := fst (newIterator txn typeName query) in
  let criteria := default [] (Query_fieldCriteria query !! Query_index query) in
  strategy_of <$> nextKeys i = Some PrimaryKeyScan ->
  (forall e, e ∈ entries_under (kv txn) (typePrefix typeName) ->
     exists val ok,
       decodeValue (Query_dataType query) (snd e) = inr val /\
       matchesAllCriteria criteria (fst e) true typeName (Some val) = inr ok) ->
  let records :=
    List.filter (record_matches criteria typeName (Query_dataType query))
      (entries_under (kv txn) (typePrefix typeName)) in
  length records <= fuel ->
  fst (drain fuel i) = records /\ Error (snd (drain fuel i)) = None.
Proof.
  intros Hs Hreads Hkept i criteria Hstrat Hdec records Hfuel.
  destruct (newIterator_fresh_shape txn typeName query)
    as (produce & Hn & Hcache & He & Htx & _ & Hpos & Hp).
  fold i criteria in Hn, Hcache, He, Htx, Hpos, Hp. rewrite Hn in Hstrat.
  injection Hstrat as Hstrat. rewrite Hstrat in Hp.
  pose proof (newIterator_items txn typeName query Hs Hreads produce Hn) as Hrun.
  fold i in Hrun.
  pose proof (newIterator_keyAt txn typeName query) as HkeyAt. fold i in HkeyAt.
  rewrite <- HkeyAt in Hkept.
  assert (keys_kept (Iterator_keyAt (iter i)) (Iterator_pos (iter i))) as Hkept'
    by (rewrite Hpos, Hp; exact Hkept).
  pose proof (drain_pending fuel i produce He Hn (fun _ => Hkept')) as Hd.
  subst produce. simpl in Hrun, Hd. rewrite Htx, Hcache, !Hrun in Hd. simpl in Hd.
  rewrite map_filter_items in Hd. fold records in Hd.
  assert (forall e, e ∈ records -> e ∈ kv txn) as Hsub.
  { intros e He'. apply list_elem_of_In, filter_In in He' as [He' _].
    by apply (entries_under_elem _ (typePrefix typeName)), list_elem_of_In. }
  rewrite (resolve_entries _ records Hs Hsub) in Hd.
  apply Hd; [| done | | by rewrite length_map].
  - apply Forall_readable_items. intros e Hin. split; [done|]. by apply Hdec.
  - apply Forall_forall. intros k Hk. apply list_elem_of_In, in_map_iff in Hk
      as ([k' v] & <- & Hin). exists v. apply store_get_elem; [done|].
    by apply Hsub, list_elem_of_In.
Qed.

(** The indexed lookup, drained.  Over a store in key order whose reads do
    not fail, when the criteria give a verdict on every index entry under
    the index prefix and every record key listed by these entries resolves
    in the store, the iterator that [newIterator] builds with the indexed
    lookup yields, entry after entry in key order, the keys of the key list
    of every entry whose field value passes the criteria, each with its
    stored value (entries that do not decode contribute nothing), and ends
    with no error. *)
Theorem indexed_lookup_yields (txn : Txn) (typeName : string) (query : Query)
    (fuel : nat) :
  sorted_store (kv txn) -> reads_ok txn ->
  let i := fst (newIterator txn typeName query) in
  let criteria := default [] (Query_fieldCriteria query !! Query_index query) in
  let prefix := indexKeyPrefix typeName (Query_index query) in
  strategy_of <$> nextKeys i = Some IndexedLookup ->
  (forall e, e ∈ entries_under (kv txn) prefix ->
     exists ok,
       matchesAllCriteria criteria (drop (length prefix) (fst e)) true "" None = inr ok) ->
  let keys := concat (map (entry_keys prefix criteria) (entries_under (kv txn) prefix)) in
  Forall (fun k => is_Some (store_get (kv txn) k)) keys ->
  length keys <= fuel ->
  fst (drain fuel i) = resolve (kv txn) keys /\ Error (snd (drain fuel i)) = None.
Proof.
  intros Hs Hreads i criteria prefix Hstrat Hmatch keys Hres Hfuel.
  destruct (newIterator_fresh_shape txn typeName query)
    as (produce & Hn & Hcache & He & Htx & _ & _ & Hp).
  fold i criteria prefix in Hn, Hcache, He, Htx, Hp. rewrite Hn in Hstrat.
  injection Hstrat as Hstrat. rewrite Hstrat in Hp.
  pose proof (newIterator_items txn typeName query Hs Hreads produce Hn) as Hrun.
  fold i in Hrun.
  assert (strategy_of produce <> IndexedLookup ->
          keys_kept (Iterator_keyAt (iter i)) (Iterator_pos (iter i)))
    as Hkept by done.
  pose proof (drain_pending fuel i produce He Hn Hkept) as Hd.
  subst produce. simpl in Hrun, Hd. rewrite Htx, Hcache, !Hrun in Hd. simpl in Hd.
  rewrite (map_entry_items (entry_keys prefix criteria)) in Hd. fold keys in Hd.
  apply Hd; try done.
  apply Forall_readable_items. intros e Hin. split; [done|]. by apply Hmatch.
Qed.


End Scans.

(** ** Errors of index maintenance, and names that share a beginning *)

Section MaintenanceErrors.
Context `{host : Host}.
Local Arguments indexKeyPrefix : simpl never.

(** A call of [indexUpdate] that returns an error has written nothing: the
    transaction is as it was before the call. *)
Theorem indexUpdate_error_writes_nothing (typeName indexName : string) (index : Index)
    (txn txn' : Txn) (key : bytes) (value : Datum) (delete : bool) (e : error) :
  indexUpdate typeName indexName index txn key value delete = (txn', Some e) ->
  txn' = txn.
Proof.
  unfold indexUpdate, Txn_Set, Txn_Delete.
  repeat match goal with
         | |- context [match ?x with _ => _ end] => destruct x eqn:?; simpl
         | |- context [if ?x then _ else _] => destruct x eqn:?; simpl
         end; congruence.
Qed.

(** [indexUpdate] returns the errors of the store: an error of the lookup
    other than "key not found", and the error of the deletion or of the
    write it ends with. *)
Theorem indexUpdate_store_errors (typeName indexName : string) (index : Index)
    (txn : Txn) (key : bytes) (value : Datum) (delete : bool) (fieldKey : bytes)
    (e : error) :
  index indexName value = (Some fieldKey, None) ->
  let indexKey := indexKeyPrefix typeName indexName ++ fieldKey in
  (Txn_Get txn indexKey = inl e -> e <> ErrKeyNotFound ->
   indexUpdate typeName indexName index txn key value delete = (txn, Some e)) /\
  (forall l, fetched txn indexKey l ->
     let l' := if delete then remove l key else add l key in
     (l' = [] /\ deleteErr txn (writes txn) indexKey = Some e) \/
     (l' <> [] /\ exists iVal, encode l' = inr iVal /\ setErr txn (writes txn) indexKey iVal = Some e) ->
     indexUpdate typeName indexName index txn key value delete = (txn, Some e)).
Proof.
  intros Hindex indexKey. split.
  - intros Hget Hne. unfold indexUpdate. rewrite Hindex. fold indexKey. rewrite Hget.
    by destruct e.
  - intros l Hfetched l' Hfail.
    rewrite (indexUpdate_fetched _ _ _ _ _ _ _ _ _ Hindex Hfetched). fold indexKey l'.
    destruct Hfail as [[-> Hd]|(Hne & iVal & Henc & Hset)].
    + unfold Txn_Delete. by rewrite Hd.
    + destruct l' as [|k0 l0]; [done|]. rewrite Henc. unfold Txn_Set. by rewrite Hset.
Qed.

(** The prefix of an index is a prefix of the prefix of every index of the
    same type whose name begins with its name. *)
Lemma indexKeyPrefix_longer_name (typeName indexName more : string) :
  indexKeyPrefix typeName (indexName ++ more)
    = indexKeyPrefix typeName indexName ++ list_byte_of_string more.
Proof.
  by rewrite !indexKeyPrefix_bytes, list_byte_of_string_app, <- !app_assoc.
Qed.

(** [indexExists] takes the entries of an index with a longer name for
    entries of the index asked for: when some entry lies under the prefix of
    an index whose name begins with [indexName], [indexExists] answers true
    for [indexName], whether or not that index has an entry of its own. *)
Theorem indexExists_longer_name (it : Iterator) (typeName indexName more : string) :
  sorted_items (Iterator_items it) ->
  exists_under (Iterator_items it) (indexKeyPrefix typeName (indexName ++ more)) ->
  snd (indexExists it typeName indexName) = true.
Proof.
  intros Hs (item & Hin & Hp). unfold indexExists.
  destruct (Iterator_ValidForPrefix (Iterator_Seek it (typePrefix typeName))
              (typePrefix typeName)); simpl; [|done].
  assert (Iterator_ValidForPrefix
            (Iterator_Seek (Iterator_Seek it (typePrefix typeName))
               (indexKeyPrefix typeName indexName))
            (indexKeyPrefix typeName indexName) = true) as ->; [|done].
  apply (Seek_ValidForPrefix (Iterator_Seek it (typePrefix typeName))); [done|].
  exists item. split; [done|]. rewrite indexKeyPrefix_longer_name in Hp.
  by apply HasPrefix_app_l in Hp.
Qed.

End MaintenanceErrors.

Section ScanErrors.
Context `{host : Host}.
Local Open Scope nat_scope.
Local Arguments iteratorKeyMinCacheSize : simpl never.

(** A candidate key without a record.  When the key [Next] pops (from the
    cache, or from the batch it has just fetched) is not in the transaction,
    [Next] returns (nil, nil), records [ErrKeyNotFound] and has consumed the
    key: the dangling key is an error, it is not skipped. *)
Theorem Next_dangling_key (i : iterator) (produce : producer) (k : bytes)
    (cache : list bytes) (it' : Iterator) :
  Error i = None -> nextKeys i = Some produce ->
  (keyCache i = k :: cache /\ it' = iter i) \/
  (keyCache i = [] /\ call produce (iter i) = (it', inr (k :: cache))) ->
  getErr (tx i) k = None -> store_get (kv (tx i)) k = None ->
  Next i = (mkiterator cache (Some produce) it' (tx i) (Some ErrKeyNotFound),
            (None, None)).
Proof.
  unfold Error, Next, Txn_Get. intros He Hn Hpop Hg Hs. rewrite He, Hn.
  destruct Hpop as [[Hcache ->]|[Hcache Hcall]]; rewrite Hcache; simpl.
  - rewrite Hcache, Hg, Hs. simpl. by rewrite ?Hn, ?He.
  - rewrite Hcall. simpl. rewrite Hg, Hs. simpl. by rewrite ?Hn, ?He.
Qed.

Lemma keyFieldKeys_loop_error (prefix : bytes) (criteria : list Criterion)
    (typeName : string) (dataType : DataType) (good : list Item) (bad : Item)
    (rest : list Item) (nKeys : list KeySlice) (e : error) :
  let produce := keyFieldKeys prefix criteria typeName dataType in
  Forall (fun item => HasPrefix (Item_Key item) prefix = true /\ readable produce item)
    good ->
  HasPrefix (Item_Key bad) prefix = true ->
  Item_Value bad (decodeValue dataType) = inl e \/
  (exists val, Item_Value bad (decodeValue dataType) = inr val /\
               matchesAllCriteria criteria (Item_Key bad) true typeName (Some val)
                 = inl e) ->
  length nKeys
    + length (List.filter
                (fun item => record_matches criteria typeName dataType (item_entry item))
                good) < iteratorKeyMinCacheSize ->
  keyFieldKeys_loop prefix criteria typeName dataType (good ++ bad :: rest) nKeys
    = (bad :: rest, inl e).
Proof.
  intros produce Hgood Hbad Hfail. revert nKeys.
  induction Hgood as [|item good [Hp [Hval (val & ok & Hdec & Hmatch)]] Hgood IH];
    intros nKeys Hlen; simpl app; cbn [keyFieldKeys_loop].
  - simpl in Hlen. destruct (Nat.ltb_spec (length nKeys) iteratorKeyMinCacheSize);
      [|lia]. rewrite Hbad. cbn [negb].
    destruct Hfail as [->|(val & -> & ->)]; done.
  - cbn [List.filter] in Hlen. unfold record_matches at 1, item_entry at 1 in Hlen.
    simpl in Hlen. rewrite Hdec, Hmatch in Hlen.
    destruct (Nat.ltb_spec (length nKeys) iteratorKeyMinCacheSize); [|lia].
    rewrite Hp. cbn [negb]. unfold Item_Value at 1. rewrite Hval, Hdec, Hmatch.
    apply IH. destruct ok; [rewrite length_app|]; simpl in *; lia.
Qed.

(** An error in a batch of the primary-key scan.  When a record under the
    prefix fails to decode, or the criteria fail on it, before the batch is
    full, the call of [Next] that fetches the batch returns (nil, nil) and
    records that error; the keys of the records before it in the batch are
    not handed out, and the store iterator stays at the failing record. *)
Theorem key_scan_error (i : iterator) (prefix : bytes) (criteria : list Criterion)
    (typeName : string) (dataType : DataType) (good : list Item) (bad : Item)
    (rest : list Item) (e : error) :
  let produce := keyFieldKeys prefix criteria typeName dataType in
  Error i = None -> nextKeys i = Some produce -> keyCache i = [] ->
  Iterator_pos (iter i) = good ++ bad :: rest ->
  Forall (fun item => HasPrefix (Item_Key item) prefix = true /\ readable produce item)
    good ->
  HasPrefix (Item_Key bad) prefix = true ->
  Item_Value bad (decodeValue dataType) = inl e \/
  (exists val, Item_Value bad (decodeValue dataType) = inr val /\
               matchesAllCriteria criteria (Item_Key bad) true typeName (Some val)
                 = inl e) ->
  length (List.filter
            (fun item => record_matches criteria typeName dataType (item_entry item))
            good) < iteratorKeyMinCacheSize ->
  Next i = (mkiterator [] (Some produce)
              (mkIterator (Iterator_items (iter i)) (bad :: rest)
                 (Iterator_keyAt (iter i)))
              (tx i) (Some e),
            (None, None)).
Proof.
  intros produce He Hn Hcache Hpos Hgood Hbad Hfail Hlen.
  unfold Error in He. unfold Next, call, read_slices. rewrite He, Hn, Hcache. simpl.
  rewrite Hpos, (keyFieldKeys_loop_error prefix criteria typeName dataType good bad rest
                   [] e Hgood Hbad Hfail) by (simpl; lia).
  by rewrite ?Hcache, ?Hn.
Qed.

End ScanErrors.

Section SampleScans.
#[local] Existing Instance Sample.host.

Lemma shop_store_sorted : sorted_store (kv (Sample.sound_tx Sample.shop)).
Proof. unfold sorted_store. vm_compute. repeat constructor. Qed.

Lemma sound_tx_reads_ok (entries : list (bytes * bytes)) :
  reads_ok (Sample.sound_tx entries).
Proof. by split. Qed.

Lemma sound_tx_keys_kept (entries : list (bytes * bytes)) (pos : list Item) :
  keys_kept (keyAt (Sample.sound_tx entries)) pos.
Proof. by intros slice now. Qed.

(** A store that recycles a key buffer [w] items later keeps the slices of
    a scan over at most [w] items. *)
Lemma recycling_tx_keys_kept (w : nat) (entries : list (bytes * bytes))
    (pos : list Item) :
  (length pos <= w)%nat -> keys_kept (keyAt (Sample.recycling_tx w entries)) pos.
Proof.
  intros Hlen slice now Hs _. simpl.
  destruct (length now <? length slice)%nat; [|done].
  apply suffix_length in Hs. rewrite drop_ge; [done|lia].
Qed.

(** A failing index function that still hands back a key: nothing is
    written. *)
Lemma indexUpdate_error_writes_nothing_witness :
  let txn := Sample.sound_tx Sample.shop in
  fst (indexUpdate "T" "f" (Sample.failing_with_key (ErrOther "index f")) txn
         (Sample.bs "bh_T:k9") (Sample.bs "a") false) = txn.
Proof.
  intros txn.
  apply (indexUpdate_error_writes_nothing "T" "f"
           (Sample.failing_with_key (ErrOther "index f")) txn _ (Sample.bs "bh_T:k9")
           (Sample.bs "a") false (ErrOther "index f")).
  reflexivity.
Defined.

(** A transaction that refuses writes: indexing a record returns the
    store's error. *)
Lemma indexUpdate_store_errors_witness :
  let e := ErrOther "read-only transaction" in
  let txn := mkTxn Sample.shop [] (fun _ => None) (fun _ => None)
               (fun _ _ _ => Some e) (fun _ _ => Some e)
               (fun slice _ => slice_key slice) in
  indexUpdate "T" "f" Sample.by_value txn (Sample.bs "bh_T:k9") (Sample.bs "a") false
    = (txn, Some e).
Proof.
  intros e txn.
  apply (proj2 (indexUpdate_store_errors "T" "f" Sample.by_value txn
                  (Sample.bs "bh_T:k9") (Sample.bs "a") false (Sample.bs "a") e eq_refl)
           [Sample.bs "bh_T:k1"; Sample.bs "bh_T:k3"]).
  - right. eexists. split; vm_compute; reflexivity.
  - right. split; [vm_compute; discriminate|]. eexists. split; vm_compute; reflexivity.
Defined.

(** A key containing a zero byte cannot be encoded by the sample codec:
    indexing it returns the encoder's error. *)
Lemma indexUpdate_propagates_witness :
  let txn := Sample.sound_tx Sample.shop in
  indexUpdate "T" "f" Sample.by_value txn [x00] (Sample.bs "z") false
    = (txn, Some (ErrOther "encode: zero byte in key")).
Proof.
  intros txn.
  apply (proj2 (proj2 (indexUpdate_propagates "T" "f" Sample.by_value txn [x00]
                         (Sample.bs "z") false (Sample.bs "z")
                         (ErrOther "encode: zero byte in key"))) eq_refl []).
  - left. split; vm_compute; reflexivity.
  - vm_compute. discriminate.
  - vm_compute. reflexivity.
Defined.

(** Records of [T] and one entry of the index [fx]: asked for the index [f],
    [indexExists] answers true. *)
Lemma indexExists_longer_name_witness :
  let it := Txn_NewIterator (Sample.sound_tx
              [(indexKeyPrefix "T" "fx" ++ Sample.bs "a", Sample.bs "bh_T:k1" ++ [x00]);
               (Sample.bs "bh_T:k1", Sample.bs "a")]) in
  snd (indexExists it "T" "f") = true.
Proof.
  intros it. apply (indexExists_longer_name it "T" "f" "x").
  - unfold sorted_items. vm_compute. repeat constructor.
  - eexists. split; [left|]. reflexivity.
Defined.

(** The end of the full-type scan of an empty store. *)
Lemma Next_end_stable_witness :
  let i := fst (newIterator (Sample.sound_tx []) "T" Sample.by_f_matching) in
  Next_times 3 (fst (Next i)) = fst (Next i) /\
  Next (fst (Next i)) = (fst (Next i), (None, None)).
Proof.
  intros i. apply (Next_end_stable i 3); vm_compute; reflexivity.
Defined.

Lemma shop_keys_kept :
  keys_kept (keyAt (Sample.recycling_tx 3 Sample.shop))
    (seek_from (Iterator_items (Txn_NewIterator (Sample.recycling_tx 3 Sample.shop)))
       (typePrefix "T")).
Proof. apply recycling_tx_keys_kept. vm_compute. lia. Qed.

(** The full-type scan of the sample store sees the three records, also
    when the store recycles a key buffer three items later. *)
Lemma full_scan_yields_witness :
  let i := fst (newIterator (Sample.recycling_tx 3 Sample.shop) "T"
                  Sample.by_f_matching) in
  fst (drain 5 i) =
    [(Sample.bs "bh_T:k1", Sample.bs "a"); (Sample.bs "bh_T:k2", Sample.bs "b");
     (Sample.bs "bh_T:k3", Sample.bs "a")].
Proof.
  intros i.
  apply (proj1 (full_scan_yields (Sample.recycling_tx 3 Sample.shop) "T"
                  Sample.by_f_matching 5
                  shop_store_sorted ltac:(by split)
                  shop_keys_kept
                  eq_refl ltac:(vm_compute; lia))).
Defined.

(** The batch of the full-type scan of the sample store, on a store that
    recycles a key buffer two items later. *)
Lemma scan_keys_read_at_return_witness :
  let it := Iterator_Seek (Txn_NewIterator (Sample.recycling_tx 2 Sample.shop))
              (typePrefix "T") in
  let produce := typeKeys (typePrefix "T") in
  exists slices,
    snd (call produce it) = inr (map (Iterator_read (fst (call produce it))) slices) /\
    map slice_key slices ++ pending produce (Iterator_pos (fst (call produce it)))
      = pending produce (Iterator_pos it) /\
    Forall (fun slice => slice `suffix_of` Iterator_pos it /\
                         Iterator_pos (fst (call produce it)) `suffix_of` slice) slices.
Proof.
  intros it produce. apply (scan_keys_read_at_return produce it).
  - discriminate.
  - vm_compute. repeat constructor.
Defined.

(** When it recycles the buffer two items later, the scan of the three
    records never yields the first record and yields the third one twice. *)
Lemma full_scan_recycled :
  let i := fst (newIterator (Sample.recycling_tx 2 Sample.shop) "T"
                  Sample.by_f_matching) in
  fst (drain 5 i) =
    [(Sample.bs "bh_T:k3", Sample.bs "a"); (Sample.bs "bh_T:k2", Sample.bs "b");
     (Sample.bs "bh_T:k3", Sample.bs "a")].
Proof. vm_compute. reflexivity. Qed.

(** The primary-key scan of the sample store sees the three records (the
    sample criteria accept every record), also when the store recycles a key
    buffer three items later. *)
Lemma key_scan_yields_witness :
  let i := fst (newIterator (Sample.recycling_tx 3 Sample.shop) "T" Sample.by_key) in
  fst (drain 5 i) =
    [(Sample.bs "bh_T:k1", Sample.bs "a"); (Sample.bs "bh_T:k2", Sample.bs "b");
     (Sample.bs "bh_T:k3", Sample.bs "a")].
Proof.
  intros i.
  apply (proj1 (key_scan_yields (Sample.recycling_tx 3 Sample.shop) "T" Sample.by_key 5
                  shop_store_sorted ltac:(by split)
                  shop_keys_kept
                  eq_refl
                  ltac:(intros e _; eexists _, _; split; reflexivity)
                  ltac:(vm_compute; lia))).
Defined.

(** The indexed lookup of the sample store sees the records of the entry
    [a], then the record of the entry [b]. *)
Lemma indexed_lookup_yields_witness :
  let i := fst (newIterator (Sample.sound_tx Sample.shop) "T" Sample.by_f) in
  fst (drain 5 i) =
    [(Sample.bs "bh_T:k1", Sample.bs "a"); (Sample.bs "bh_T:k3", Sample.bs "a");
     (Sample.bs "bh_T:k2", Sample.bs "b")].
Proof.
  intros i.
  apply (proj1 (indexed_lookup_yields (Sample.sound_tx Sample.shop) "T" Sample.by_f 5
                  shop_store_sorted (sound_tx_reads_ok _) eq_refl
                  ltac:(intros e _; eexists; reflexivity)
                  ltac:(vm_compute; repeat (constructor; [eexists; reflexivity|]);
                        constructor)
                  ltac:(vm_compute; lia))).
Defined.


(** An index entry that lists the record [k1], and no such record. *)
Lemma Next_dangling_key_witness :
  let prefix := indexKeyPrefix "T" "f" in
  let txn := Sample.sound_tx [(prefix ++ Sample.bs "a", Sample.bs "bh_T:k1" ++ [x00])] in
  let i := fst (newIterator txn "T" Sample.by_f) in
  snd (Next i) = (None, None) /\ Error (fst (Next i)) = Some ErrKeyNotFound.
Proof.
  intros prefix txn i.
  rewrite (Next_dangling_key i (indexKeys prefix []) (Sample.bs "bh_T:k1") []
             (mkIterator (Iterator_items (iter i)) [] (Iterator_keyAt (iter i)))
             eq_refl eq_refl
             ltac:(right; split; vm_compute; reflexivity) eq_refl eq_refl).
  by split.
Defined.

End SampleScans.

Section StrictScans.
#[local] Existing Instance Strict.host.

(** The second of three records is damaged: the first call of [Next]
    returns no record, not even the first one, and records the error. *)
Lemma key_scan_error_witness :
  let txn := Sample.sound_tx
               [(Sample.bs "bh_T:k1", [x01]); (Sample.bs "bh_T:k2", []);
                (Sample.bs "bh_T:k3", [x03])] in
  let i := fst (newIterator txn "T" (mkQuery "" false ∅ tt)) in
  snd (Next i) = (None, None) /\
  Error (fst (Next i)) = Some (ErrOther "decode: not a record").
Proof.
  intros txn i.
  rewrite (key_scan_error i (typePrefix "T") [] "T" tt
             [mkItem (Sample.bs "bh_T:k1") [x01] None]
             (mkItem (Sample.bs "bh_T:k2") [] None)
             [mkItem (Sample.bs "bh_T:k3") [x03] None]
             (ErrOther "decode: not a record") eq_refl eq_refl eq_refl eq_refl
             ltac:(constructor; [|constructor]; split; [reflexivity|]; split;
                   [reflexivity|]; eexists _, _; split; reflexivity)
             eq_refl ltac:(left; reflexivity) ltac:(vm_compute; lia)).
  by split.
Defined.

End StrictScans.
